(** * H3 boundary tracing: face tables, ascend, coarsest ancestor, descend

    A shallow embedding of [h3_toolkit/utils.py].  The [h3] package the
    module imports is an external grid index; it is taken as an interface
    ([H3]) and every theorem is stated for an arbitrary implementation of
    it.  Python sets of faces are [gset Z], the nested face dictionaries
    are [gmap]s, resolutions and child positions are [Z]. *)

From stdpp Require Import base option list gmap fin_sets sets.

Local Open Scope Z_scope.

(** ** The grid index used by the module *)

(** The five [h3] calls made by [utils.py].  Cells are opaque values.
    [cell_to_children c res] is the list the call returns; for a
    resolution the grid does not have the call raises instead, which is
    modelled by [h3_cell_to_children] below. *)
Class H3 := {
  Cell : Type;
  Cell_eq_dec :: EqDecision Cell;
  get_resolution : Cell → Z;
  is_pentagon : Cell → bool;
  cell_to_parent : Cell → Z → Cell;
  cell_to_children : Cell → Z → list Cell;
  cell_to_child_pos : Cell → Z → Z;
}.

(** ** Outcomes of a call *)

(** The three [raise ValueError(...)] sites of the module, and the error
    of the [h3] package that passes through the module to its caller:
    [H3ResDomainError], a subclass of [ValueError]. *)
Inductive ValueError : Set :=
  | res_parent_not_less (res_parent h_res : Z)
      (* "res_parent (..) must be less than cell resolution (..)." *)
  | res_parent_negative
      (* "res_parent cannot be negative." *)
  | target_res_too_small
      (* "target_res must be greater than parent cell resolution." *)
  | H3ResDomainError.
      (* raised by h3.cell_to_children *)

(** A call returns, raises, or (for the recursions that are not
    structural) uses up the recursion bound of the model.  The totality
    lemmas below show that the last case never happens. *)
Inductive outcome (A : Type) : Type :=
  | Return (a : A)
  | Raise (e : ValueError)
  | Exhausted.
Arguments Return {A} a.
Arguments Raise {A} e.
Arguments Exhausted {A}.

#[global] Instance outcome_ret : MRet outcome := @Return.
#[global] Instance outcome_bind : MBind outcome := λ A B f o,
  match o with
  | Return a => f a
  | Raise e => Raise e
  | Exhausted => Exhausted
  end.

(** [for x in xs: body] over a loop state [S], in a monad [M]. *)
Fixpoint for_each {M : Type → Type} `{!MBind M, !MRet M} {A S}
    (xs : list A) (body : A → S → M S) (s : S) : M S :=
  match xs with
  | [] => mret s
  | x :: xs' => s' ← body x s; for_each xs' body s'
  end.

Definition raises {A} (o : outcome A) : Prop :=
  match o with Raise _ => True | _ => False end.

#[global] Instance raises_dec {A} (o : outcome A) : Decision (raises o).
Proof. destruct o; simpl; apply _. Defined.

(** ** Face mappings *)

Module Tables.

(** [{k1: v1, ...}] for a face dictionary and [{a, b}] for a face set. *)
Definition dict {V} (l : list (Z * V)) : gmap Z V := list_to_map l.
Definition fset (l : list Z) : gset Z := list_to_set l.

Definition _boundary_face_mapping_hex : gmap Z (gmap Z (gmap Z Z)) :=
  dict [
    (0, dict [ (* Even resolutions *)
      (0, dict []);
      (1, dict [(2, 3); (3, 1); (1, 1)]);
      (2, dict [(4, 6); (2, 2); (6, 2)]);
      (3, dict [(6, 2); (2, 3); (3, 3)]);
      (4, dict [(1, 5); (4, 4); (5, 4)]);
      (5, dict [(1, 5); (3, 1); (5, 5)]);
      (6, dict [(4, 6); (5, 4); (6, 6)]) ]);
    (1, dict [ (* Odd resolutions *)
      (0, dict []);
      (1, dict [(3, 3); (1, 3); (5, 1)]);
      (2, dict [(2, 6); (6, 6); (3, 2)]);
      (3, dict [(2, 2); (1, 3); (3, 2)]);
      (4, dict [(4, 5); (5, 5); (6, 4)]);
      (5, dict [(1, 1); (4, 5); (5, 1)]);
      (6, dict [(4, 4); (2, 6); (6, 4)]) ]) ].

Definition _reversed_boundary_face_mapping_hex
  : gmap Z (gmap Z (gmap Z (gset Z))) :=
  dict [
    (0, dict [ (* Even resolutions *)
      (1, dict [(1, fset [1; 3]); (3, fset [2])]);
      (2, dict [(2, fset [2; 6]); (6, fset [4])]);
      (3, dict [(2, fset [6]); (3, fset [2; 3])]);
      (4, dict [(4, fset [4; 5]); (5, fset [1])]);
      (5, dict [(5, fset [1; 5]); (1, fset [3])]);
      (6, dict [(4, fset [5]); (6, fset [4; 6])]);
      (0, dict []) ]);
    (1, dict [ (* Odd resolutions *)
      (1, dict [(3, fset [1; 3]); (1, fset [5])]);
      (2, dict [(6, fset [2; 6]); (2, fset [3])]);
      (3, dict [(2, fset [2; 3]); (3, fset [1])]);
      (4, dict [(5, fset [4; 5]); (4, fset [6])]);
      (5, dict [(1, fset [1; 5]); (5, fset [4])]);
      (6, dict [(4, fset [4; 6]); (6, fset [2])]);
      (0, dict []) ]) ].

Definition _boundary_face_mapping_pent : gmap Z (gmap Z (gmap Z Z)) :=
  dict [
    (0, dict [ (* Even resolutions *)
      (0, dict []);
      (1, dict [(4, 5); (2, 1); (6, 1)]);
      (2, dict [(6, 1); (3, 2); (2, 2)]);
      (3, dict [(5, 2); (4, 2); (6, 4)]);
      (4, dict [(3, 2); (5, 4); (1, 2)]);
      (5, dict [(5, 3); (6, 5); (4, 5)]);
      (6, dict []) ]);
    (1, dict [ (* Odd resolutions *)
      (0, dict []);
      (1, dict [(2, 5); (6, 5); (3, 1)]);
      (2, dict [(3, 1); (2, 1); (1, 2)]);
      (3, dict [(1, 4); (4, 3); (5, 3)]);
      (4, dict [(1, 2); (5, 2); (4, 4)]);
      (5, dict [(2, 5); (4, 3); (6, 3)]);
      (6, dict []) ]) ].

Definition _reversed_boundary_face_mapping_pent
  : gmap Z (gmap Z (gmap Z (gset Z))) :=
  dict [
    (0, dict [ (* Even resolutions *)
      (1, dict [(1, fset [2; 6]); (5, fset [4])]);
      (2, dict [(1, fset [6]); (2, fset [2; 3])]);
      (3, dict [(4, fset [1]); (3, fset [4; 5])]);
      (4, dict [(4, fset [5]); (2, fset [1; 3])]);
      (5, dict [(5, fset [4; 6]); (3, fset [5])]);
      (6, dict []);
      (0, dict []) ]);
    (1, dict [ (* Odd resolutions *)
      (1, dict [(5, fset [2; 6]); (1, fset [3])]);
      (2, dict [(2, fset [1]); (1, fset [2; 3])]);
      (3, dict [(3, fset [6]); (4, fset [4; 5])]);
      (4, dict [(4, fset [4]); (2, fset [1; 5])]);
      (5, dict [(5, fset [2]); (3, fset [4; 6])]);
      (6, dict []);
      (0, dict []) ]) ].

End Tables.
Export Tables.

(** The default value of every [input_faces] parameter. *)
Definition all_faces : gset Z := fset [1; 2; 3; 4; 5; 6].

(** The finest resolution of the grid: [h3] has the resolutions 0 to 15. *)
Definition max_resolution : Z := 15.

(** [range(start, stop, -1)] *)
Definition range_down (start stop : Z) : list Z :=
  (λ i : nat, start - Z.of_nat i) <$> seq 0 (Z.to_nat (start - stop)).

Section utils.
Context `{H3}.

(** *** [trace_cell_to_ancestor_faces] *)

(** The body of [for res in range(h_res, res_parent, -1)], with the
    loop variables [current_h] and [input_faces]; the result is the
    value returned by the function. *)
Fixpoint trace_loop (rs : list Z) (current_h : Cell) (input_faces : gset Z)
  : gset Z :=
  match rs with
  | [] => input_faces
  | res :: rs' =>
    if is_pentagon current_h then ∅ else
    let parity := res `mod` 2 in
    let child_pos := cell_to_child_pos current_h (res - 1) in
    let parent := cell_to_parent current_h (res - 1) in
    let parent_is_pent := is_pentagon parent in
    if decide (child_pos = 0) then ∅ else
    let mapping_dict :=
      if parent_is_pent then _boundary_face_mapping_pent
      else _boundary_face_mapping_hex in
    let face_map := default ∅ ((mapping_dict !!! parity) !! child_pos) in
    let mapped_faces : gset Z :=
      set_omap (λ f, face_map !! f) input_faces in
    if decide (mapped_faces = ∅) then ∅ else
    trace_loop rs' parent mapped_faces
  end.

Definition trace_cell_to_ancestor_faces
    (h : Cell) (input_faces : gset Z) (res_parent : option Z)
  : outcome (gset Z) :=
  let h_res := get_resolution h in
  let res_parent := default (h_res - 1) res_parent in
  if decide (res_parent >= h_res) then
    Raise (res_parent_not_less res_parent h_res)
  else if decide (res_parent < 0) then Raise res_parent_negative
  else if decide (input_faces = ∅) then Return ∅
  else Return (trace_loop (range_down h_res res_parent) h input_faces).

(** *** [trace_cell_to_parent_faces] *)

Definition trace_cell_to_parent_faces (h : Cell) (input_faces : gset Z)
  : outcome (gset Z) :=
  let parent_res := get_resolution h - 1 in
  trace_cell_to_ancestor_faces h input_faces (Some parent_res).

(** *** [cell_to_coarsest_ancestor_on_faces] *)

(** [while res > 0: ...]; [fuel] bounds the number of iterations. *)
Fixpoint coarsest_loop (fuel : nat) (res : Z) (current_h : Cell)
    (input_faces : gset Z) : outcome Cell :=
  if decide (res > 0) then
    match fuel with
    | O => Exhausted
    | S fuel' =>
      let parent_res := res - 1 in
      boundary_faces ←
        trace_cell_to_ancestor_faces current_h input_faces (Some parent_res);
      if decide (boundary_faces = ∅) then Return current_h
      else
        coarsest_loop fuel' parent_res
          (cell_to_parent current_h parent_res) boundary_faces
    end
  else Return current_h.

Definition cell_to_coarsest_ancestor_on_faces
    (h : Cell) (input_faces : gset Z) : outcome Cell :=
  let res := get_resolution h in
  coarsest_loop (Z.to_nat res) res h input_faces.

(** *** [children_on_boundary_faces] *)

(** The inner [for parent_face in faces] loop: the faces of the child
    inherited from the parent faces in [faces]. *)
Definition child_mapped_faces (child_mapping : gmap Z (gset Z))
    (faces : gset Z) : gset Z :=
  set_fold (λ parent_face (mapped_faces : gset Z),
    match child_mapping !! parent_face with
    | Some child_faces => mapped_faces ∪ child_faces
    | None => mapped_faces
    end) ∅ faces.

(** [h3.cell_to_children(c, res)] as the module calls it: asked for
    children at a resolution finer than the finest of the grid, [h3]
    raises [H3ResDomainError] and returns no list.  ([h3] also refuses a
    resolution coarser than that of the cell; the module asks for the
    one that is finer by one.) *)
Definition h3_cell_to_children (c : Cell) (res : Z) : outcome (list Cell) :=
  if decide (max_resolution < res) then Raise H3ResDomainError
  else Return (cell_to_children c res).

(** The nested function; [target_res] is the variable it closes over
    and [fuel] bounds the recursion depth. *)
Fixpoint _children_by_face (target_res : Z) (fuel : nat)
    (current : Cell) (res : Z) (faces : gset Z) : outcome (list Cell) :=
  if decide (res = target_res) then Return [current] else
  match fuel with
  | O => Exhausted
  | S fuel' =>
    let parity := (res + 1) `mod` 2 in
    let is_pent := is_pentagon current in
    let mapping_dict :=
      if is_pent then _reversed_boundary_face_mapping_pent
      else _reversed_boundary_face_mapping_hex in
    let reverse_mapping := mapping_dict !!! parity in
    children ← h3_cell_to_children current (res + 1);
    for_each children (λ child result,
      let child_pos := cell_to_child_pos child res in
      let child_mapping := default ∅ (reverse_mapping !! child_pos) in
      let mapped_faces := child_mapped_faces child_mapping faces in
      if decide (mapped_faces ≠ ∅) then
        sub ← _children_by_face target_res fuel' child (res + 1) mapped_faces;
        Return (result ++ sub)
      else Return result) []
  end.

Definition children_on_boundary_faces
    (parent : Cell) (target_res : Z) (input_faces : gset Z)
  : outcome (list Cell) :=
  let res_parent := get_resolution parent in
  if decide (target_res < res_parent) then Raise target_res_too_small
  else
    _children_by_face target_res (Z.to_nat (target_res - res_parent))
      parent res_parent input_faces.

End utils.


(** ** The module with its set objects *)

(** The same four functions with Python's object model for sets: a set
    is an object in a store and a variable holds a reference to it, so
    that [input_faces = mapped_faces] rebinds a name and
    [mapped_faces.update(..)] changes an object.  Every call into [h3],
    every lookup in a face table and every entry into [_children_by_face]
    is recorded in a log. *)
Module Obj.
Section obj.
Context `{H3}.

Definition ref := nat.

Inductive event :=
  | ev_get_resolution (c : Cell)
  | ev_is_pentagon (c : Cell)
  | ev_cell_to_child_pos (c : Cell) (r : Z)
  | ev_cell_to_parent (c : Cell) (r : Z)
  | ev_cell_to_children (c : Cell) (r : Z)
  | ev_forward_lookup (pent : bool) (parity child_pos : Z)
  | ev_reverse_lookup (pent : bool) (parity child_pos : Z)
  | ev_children_by_face (current : Cell) (res : Z) (faces : ref).

Record state := State { sets : list (gset Z); log : list event }.

Definition M (A : Type) : Type := state → outcome A * state.

#[global] Instance M_ret : MRet M := λ A a σ, (Return a, σ).
#[global] Instance M_bind : MBind M := λ A B f m σ,
  match m σ with
  | (Return a, σ') => f a σ'
  | (Raise e, σ') => (Raise e, σ')
  | (Exhausted, σ') => (Exhausted, σ')
  end.

Definition raise {A} (e : ValueError) : M A := λ σ, (Raise e, σ).
Definition exhausted {A} : M A := λ σ, (Exhausted, σ).
Definition emit (e : event) : M () :=
  λ σ, (Return (), State (sets σ) (log σ ++ [e])).

(** [set()] and set displays: a new object. *)
Definition new_set (s : gset Z) : M ref :=
  λ σ, (Return (length (sets σ)), State (sets σ ++ [s]) (log σ)).
(** Reading the elements of the object behind a reference. *)
Definition read (r : ref) : M (gset Z) := λ σ, (Return (sets σ !!! r), σ).
(** [r.update(s)] *)
Definition update (r : ref) (s : gset Z) : M () :=
  λ σ, (Return (), State (<[r := (sets σ !!! r) ∪ s]> (sets σ)) (log σ)).

Definition h3_get_resolution (c : Cell) : M Z :=
  emit (ev_get_resolution c);; mret (get_resolution c).
Definition h3_is_pentagon (c : Cell) : M bool :=
  emit (ev_is_pentagon c);; mret (is_pentagon c).
Definition h3_cell_to_child_pos (c : Cell) (r : Z) : M Z :=
  emit (ev_cell_to_child_pos c r);; mret (cell_to_child_pos c r).
Definition h3_cell_to_parent (c : Cell) (r : Z) : M Cell :=
  emit (ev_cell_to_parent c r);; mret (cell_to_parent c r).
(** The call is made, and raises for a resolution the grid does not
    have. *)
Definition h3_cell_to_children (c : Cell) (r : Z) : M (list Cell) :=
  emit (ev_cell_to_children c r);;
  if decide (max_resolution < r) then raise H3ResDomainError
  else mret (cell_to_children c r).

(** [mapping_dict[parity].get(child_pos, {})] on the forward tables *)
Definition forward_lookup (pent : bool) (parity child_pos : Z)
  : M (gmap Z Z) :=
  emit (ev_forward_lookup pent parity child_pos);;
  let mapping_dict :=
    if pent then _boundary_face_mapping_pent
    else _boundary_face_mapping_hex in
  mret (default ∅ ((mapping_dict !!! parity) !! child_pos)).

(** [reverse_mapping.get(child_pos, {})] on the reverse tables *)
Definition reverse_lookup (pent : bool) (parity child_pos : Z)
  : M (gmap Z (gset Z)) :=
  emit (ev_reverse_lookup pent parity child_pos);;
  let mapping_dict :=
    if pent then _reversed_boundary_face_mapping_pent
    else _reversed_boundary_face_mapping_hex in
  mret (default ∅ ((mapping_dict !!! parity) !! child_pos)).

(** The objects made when the module is loaded: one default
    [{1, 2, 3, 4, 5, 6}] per function, shared by all its calls. *)
Definition trace_cell_to_ancestor_faces_default : ref := 0%nat.
Definition trace_cell_to_parent_faces_default : ref := 1%nat.
Definition cell_to_coarsest_ancestor_on_faces_default : ref := 2%nat.
Definition children_on_boundary_faces_default : ref := 3%nat.
Definition loaded : state := State (replicate 4 all_faces) [].

Fixpoint trace_loop (rs : list Z) (current_h : Cell) (input_faces : ref)
  : M ref :=
  match rs with
  | [] => mret input_faces
  | res :: rs' =>
    pent ← h3_is_pentagon current_h;
    if pent : bool then new_set ∅ else
    let parity := res `mod` 2 in
    child_pos ← h3_cell_to_child_pos current_h (res - 1);
    parent ← h3_cell_to_parent current_h (res - 1);
    parent_is_pent ← h3_is_pentagon parent;
    if decide (child_pos = 0) then new_set ∅ else
    face_map ← forward_lookup parent_is_pent parity child_pos;
    faces ← read input_faces;
    mapped_faces ← new_set (set_omap (λ f, face_map !! f) faces);
    mapped ← read mapped_faces;
    if decide (mapped = ∅) then new_set ∅ else
    trace_loop rs' parent mapped_faces
  end.

(** [input_faces = None] is a call without the argument. *)
Definition trace_cell_to_ancestor_faces
    (h : Cell) (input_faces : option ref) (res_parent : option Z) : M ref :=
  let input_faces :=
    default trace_cell_to_ancestor_faces_default input_faces in
  h_res ← h3_get_resolution h;
  let res_parent := default (h_res - 1) res_parent in
  if decide (res_parent >= h_res) then
    raise (res_parent_not_less res_parent h_res)
  else if decide (res_parent < 0) then raise res_parent_negative
  else
    faces ← read input_faces;
    if decide (faces = ∅) then new_set ∅
    else trace_loop (range_down h_res res_parent) h input_faces.

Definition trace_cell_to_parent_faces
    (h : Cell) (input_faces : option ref) : M ref :=
  let input_faces :=
    default trace_cell_to_parent_faces_default input_faces in
  h_res ← h3_get_resolution h;
  let parent_res := h_res - 1 in
  trace_cell_to_ancestor_faces h (Some input_faces) (Some parent_res).

Fixpoint coarsest_loop (fuel : nat) (res : Z) (current_h : Cell)
    (input_faces : ref) : M Cell :=
  if decide (res > 0) then
    match fuel with
    | O => exhausted
    | S fuel' =>
      let parent_res := res - 1 in
      boundary_faces ←
        trace_cell_to_ancestor_faces current_h (Some input_faces)
          (Some parent_res);
      found ← read boundary_faces;
      if decide (found = ∅) then mret current_h else
      parent ← h3_cell_to_parent current_h parent_res;
      coarsest_loop fuel' parent_res parent boundary_faces
    end
  else mret current_h.

Definition cell_to_coarsest_ancestor_on_faces
    (h : Cell) (input_faces : option ref) : M Cell :=
  let input_faces :=
    default cell_to_coarsest_ancestor_on_faces_default input_faces in
  res ← h3_get_resolution h;
  coarsest_loop (Z.to_nat res) res h input_faces.

(** [for parent_face in faces: ...] on the object [mapped_faces] *)
Definition update_mapped_faces (child_mapping : gmap Z (gset Z))
    (mapped_faces : ref) (faces : list Z) : M () :=
  for_each faces (λ parent_face (_ : ()),
    match child_mapping !! parent_face with
    | Some child_faces => update mapped_faces child_faces
    | None => mret ()
    end) ().

Fixpoint _children_by_face (target_res : Z) (fuel : nat)
    (current : Cell) (res : Z) (faces : ref) : M (list Cell) :=
  emit (ev_children_by_face current res faces);;
  if decide (res = target_res) then mret [current] else
  match fuel with
  | O => exhausted
  | S fuel' =>
    let parity := (res + 1) `mod` 2 in
    is_pent ← h3_is_pentagon current;
    children ← h3_cell_to_children current (res + 1);
    for_each children (λ child result,
      child_pos ← h3_cell_to_child_pos child res;
      mapped_faces ← new_set ∅;
      child_mapping ← reverse_lookup is_pent parity child_pos;
      parent_faces ← read faces;
      update_mapped_faces child_mapping mapped_faces (elements parent_faces);;
      mapped ← read mapped_faces;
      if decide (mapped ≠ ∅) then
        sub ← _children_by_face target_res fuel' child (res + 1) mapped_faces;
        mret (result ++ sub)
      else mret result) []
  end.

Definition children_on_boundary_faces
    (parent : Cell) (target_res : Z) (input_faces : option ref)
  : M (list Cell) :=
  let input_faces :=
    default children_on_boundary_faces_default input_faces in
  res_parent ← h3_get_resolution parent;
  if decide (target_res < res_parent) then raise target_res_too_small
  else
    _children_by_face target_res (Z.to_nat (target_res - res_parent))
      parent res_parent input_faces.

(** The entries into [_children_by_face] recorded in a log, in order. *)
Fixpoint entries (events : list event) : list (Cell * Z * ref) :=
  match events with
  | [] => []
  | ev_children_by_face current res faces :: events' =>
    (current, res, faces) :: entries events'
  | _ :: events' => entries events'
  end.

(** Every set object of [σ] holds the same elements after running [m]. *)
Definition preserves_sets {A} (m : M A) (σ : state) : Prop :=
  ∀ r s, sets σ !! r = Some s → sets (m σ).2 !! r = Some s.

(** A reference returned by [m] from [σ] is to an object made by [m]. *)
Definition returns_new_set (m : M ref) (σ : state) : Prop :=
  ∀ r σ', m σ = (Return r, σ') → (length (sets σ) ≤ r)%nat.

End obj.
End Obj.
(** ** A reference grid *)

(** Modelled from the spec: the external grid index ([h3]) is not part of
    the repository.  This instance follows the data model of the
    specification (aperture 7, digits 0 to 6, a fixed set of pentagonal
    base cells whose centre descendants are the pentagons, pentagons
    having no child at digit 1) and gives the interface a concrete
    inhabitant on which the theorems below are instantiated.  A cell is
    its base cell and the digits from resolution 1 down to its own. *)
Module Grid.

Record cell := Mk { base_cell : Z; digits : list Z }.

#[global] Instance cell_eq_dec : EqDecision cell.
Proof. solve_decision. Defined.

Definition pentagon_base_cells : list Z :=
  [4; 14; 24; 38; 49; 58; 63; 72; 83; 97; 107; 117].

Definition resolution (c : cell) : Z := Z.of_nat (length (digits c)).

Definition pentagon (c : cell) : bool :=
  bool_decide (base_cell c ∈ pentagon_base_cells)
  && forallb (Z.eqb 0) (digits c).

Definition parent (c : cell) (r : Z) : cell :=
  Mk (base_cell c) (take (Z.to_nat r) (digits c)).

Definition child_digits (c : cell) : list Z :=
  if pentagon c then [0; 2; 3; 4; 5; 6] else [0; 1; 2; 3; 4; 5; 6].

Definition direct_children (c : cell) : list cell :=
  (λ d, Mk (base_cell c) (digits c ++ [d])) <$> child_digits c.

Fixpoint descendants (n : nat) (c : cell) : list cell :=
  match n with
  | O => [c]
  | S n' => direct_children c ≫= descendants n'
  end.

(** [h3] fails for a resolution that is not finer; no call of the module
    asks for one. *)
Definition children (c : cell) (r : Z) : list cell :=
  if decide (r < resolution c) then []
  else descendants (Z.to_nat (r - resolution c)) c.

(** The position of [c] in the ordered children of its ancestor at
    resolution [r] (0 for a digit sequence that is not a cell, where
    [h3] fails). *)
Definition child_pos (c : cell) (r : Z) : Z :=
  match list_find (λ x, x = c) (children (parent c r) (resolution c)) with
  | Some (i, _) => Z.of_nat i
  | None => 0
  end.

#[global] Instance h3 : H3 := {|
  Cell := cell;
  get_resolution := resolution;
  is_pentagon := pentagon;
  cell_to_parent := parent;
  cell_to_children := children;
  cell_to_child_pos := child_pos;
|}.

(** Some cells: a hexagonal base cell, three of its descendants, and a
    pentagonal base cell. *)
Definition base0 : Cell := Mk 0 [].
Definition cell_3 : Cell := Mk 0 [3].
Definition cell_325 : Cell := Mk 0 [3; 2; 5].
Definition cell_305 : Cell := Mk 0 [3; 0; 5].
Definition base4 : Cell := Mk 4 [].
(** The index [86283082fffffff] of the package's quick start: resolution
    6, base cell 20, digits 0 6 0 4 0 5. *)
Definition cell_86283082 : Cell := Mk 20 [0; 6; 0; 4; 0; 5].

End Grid.


(** ** Laws of the grid index *)

(** A theorem that needs a fact about the grid index takes it as a
    hypothesis; [Grid] satisfies each of them. *)

(** [h3.get_resolution(h3.cell_to_parent(c, k)) == k] *)
Definition parent_resolution_law `{H3} : Prop :=
  ∀ c k, 0 ≤ k < get_resolution c → get_resolution (cell_to_parent c k) = k.

(** Every cell of [h3.cell_to_children(c, r + 1)] has resolution [r + 1],
    for [r] the resolution of [c]. *)
Definition children_resolution_law `{H3} : Prop :=
  ∀ c c', c' ∈ cell_to_children c (get_resolution c + 1) →
    get_resolution c' = get_resolution c + 1.


(** ** Definitions used in the statements *)

(** The reverse table used by [_children_by_face]. *)
Definition reverse_table (is_pent : bool) : gmap Z (gmap Z (gmap Z (gset Z))) :=
  if is_pent then _reversed_boundary_face_mapping_pent
  else _reversed_boundary_face_mapping_hex.

(** The forward table used by [trace_cell_to_ancestor_faces]. *)
Definition forward_table (parent_is_pent : bool) : gmap Z (gmap Z (gmap Z Z)) :=
  if parent_is_pent then _boundary_face_mapping_pent
  else _boundary_face_mapping_hex.

Section statements.
Context `{H3}.

(** The cells the walk of [trace_cell_to_ancestor_faces] goes through,
    each with the resolution [res] of its iteration: [current_h] starts
    at [h] and becomes [h3.cell_to_parent(current_h, res - 1)]. *)
Fixpoint walk_cells (rs : list Z) (current_h : Cell) : list (Z * Cell) :=
  match rs with
  | [] => []
  | res :: rs' =>
    (res, current_h) :: walk_cells rs' (cell_to_parent current_h (res - 1))
  end.

(** A cell of the walk at which the loop body returns [set()] before
    the table lookup. *)
Definition stops_walk (rc : Z * Cell) : Prop :=
  is_pentagon rc.2 = true ∨ cell_to_child_pos rc.2 (rc.1 - 1) = 0.

(** The faces handed to [child] by one step of [_children_by_face] at
    [(current, res, faces)]. *)
Definition child_faces (current : Cell) (res : Z) (faces : gset Z)
    (child : Cell) : gset Z :=
  child_mapped_faces
    (default ∅ ((reverse_table (is_pentagon current) !!! ((res + 1) `mod` 2))
                  !! cell_to_child_pos child res))
    faces.

(** What [_children_by_face] returns [n] levels above the target
    resolution, as a function of [n]. *)
Fixpoint boundary_descendants (n : nat) (current : Cell) (res : Z)
    (faces : gset Z) : list Cell :=
  match n with
  | O => [current]
  | S n' =>
    cell_to_children current (res + 1) ≫= λ child,
      if decide (child_faces current res faces child ≠ ∅) then
        boundary_descendants n' child (res + 1)
          (child_faces current res faces child)
      else []
  end.

(** The four default objects exist, and so does the object the caller
    passes. *)
Definition faces_exist (σ : Obj.state) (input_faces : option Obj.ref) : Prop :=
  (4 ≤ length (Obj.sets σ))%nat
  ∧ ∀ r, input_faces = Some r → (r < length (Obj.sets σ))%nat.

End statements.

(** ** More definitions used in the statements *)

(** [mapping_dict[parity].get(child_pos, {})] on the forward and on the
    reverse tables, and what it means for the second to be the first
    turned around. *)
Definition forward_entry (pent : bool) (parity child_pos : Z) : gmap Z Z :=
  default ∅ ((forward_table pent !!! parity) !! child_pos).
Definition reverse_entry (pent : bool) (parity child_pos : Z)
  : gmap Z (gset Z) :=
  default ∅ ((reverse_table pent !!! parity) !! child_pos).

Definition inverse_entries (face_map : gmap Z Z)
    (child_mapping : gmap Z (gset Z)) : Prop :=
  map_Forall (λ cf pf, cf ∈ default ∅ (child_mapping !! pf)) face_map
  ∧ map_Forall (λ pf s, set_Forall (λ cf, face_map !! cf = Some pf) s)
      child_mapping.

#[global] Instance inverse_entries_dec fm cm : Decision (inverse_entries fm cm).
Proof. unfold inverse_entries. apply _. Defined.

(** Every face of a cell (every face but 6 for a pentagon) is inherited
    by a child at one of the positions 1 to 5. *)
Definition face_covered (pent : bool) (parity f : Z) : Prop :=
  Exists (λ k, ∃ s, reverse_entry pent parity k !! f = Some s ∧ s ≠ ∅)
    [1; 2; 3; 4; 5].

#[global] Instance face_covered_dec pent parity f :
  Decision (face_covered pent parity f).
Proof.
  unfold face_covered. apply Exists_dec. intros k.
  destruct (reverse_entry pent parity k !! f) as [s|].
  - destruct (decide (s ≠ ∅)); [left; by exists s|right; by intros (? & [= <-] & ?)].
  - right. by intros (? & [=] & _).
Defined.

(** *** More laws of the grid index *)

(** [cell_to_parent(cell_to_parent(c, k), j) == cell_to_parent(c, j)] *)
Definition parent_compose_law `{H3} : Prop :=
  ∀ c j k, 0 ≤ j → j < k → k < get_resolution c →
    cell_to_parent (cell_to_parent c k) j = cell_to_parent c j.

(** A cell is the parent of each of its children, and lists no child
    twice. *)
Definition parent_of_child_law `{H3} : Prop :=
  ∀ c c', c' ∈ cell_to_children c (get_resolution c + 1) →
    cell_to_parent c' (get_resolution c) = c.

Definition children_nodup_law `{H3} : Prop :=
  ∀ c, NoDup (cell_to_children c (get_resolution c + 1)).

(** A child that is a pentagon is the centre child. *)
Definition pentagon_center_law `{H3} : Prop :=
  ∀ c c', c' ∈ cell_to_children c (get_resolution c + 1) →
    is_pentagon c' = true → cell_to_child_pos c' (get_resolution c) = 0.

(** Under a cell that is not at the finest resolution, each of the
    positions 1 to 5 is taken by a child, which is a hexagon. *)
Definition child_positions_law `{H3} : Prop :=
  ∀ c k, get_resolution c < max_resolution → 1 ≤ k ≤ 5 →
    ∃ child, child ∈ cell_to_children c (get_resolution c + 1)
      ∧ cell_to_child_pos child (get_resolution c) = k
      ∧ is_pentagon child = false.

Section more_statements.
Context `{H3}.

(** The cell the walk of [trace_cell_to_ancestor_faces] ends at. *)
Fixpoint walk_end (rs : list Z) (current_h : Cell) : Cell :=
  match rs with
  | [] => current_h
  | res :: rs' => walk_end rs' (cell_to_parent current_h (res - 1))
  end.

(** The faces and the cell of the walk from [h] at resolution [j]. *)
Definition faces_at (h : Cell) (F : gset Z) (j : Z) : gset Z :=
  trace_loop (range_down (get_resolution h) j) h F.
Definition cell_at (h : Cell) (j : Z) : Cell :=
  walk_end (range_down (get_resolution h) j) h.

(** The face of the last cell of the walk that face [x] of [current_h]
    lies along, following the forward table level by level. *)
Fixpoint lift_face (rs : list Z) (current_h : Cell) (x : Z) : option Z :=
  match rs with
  | [] => Some x
  | res :: rs' =>
    let parent := cell_to_parent current_h (res - 1) in
    y ← forward_entry (is_pentagon parent) (res `mod` 2)
          (cell_to_child_pos current_h (res - 1)) !! x;
    lift_face rs' parent y
  end.

(** A step of the walk at which ascend and descend use inverse tables
    and the cell is listed among the children of its parent. *)
Definition round_trip_step (rc : Z * Cell) : Prop :=
  rc.2 ∈ cell_to_children (cell_to_parent rc.2 (rc.1 - 1)) rc.1
  ∧ (is_pentagon (cell_to_parent rc.2 (rc.1 - 1)) = false
     ∨ cell_to_child_pos rc.2 (rc.1 - 1) ≠ 3).

End more_statements.

(** *** Sequences of calls *)

Module Calls.
Section calls.
Context `{H3}.






End calls.
End Calls.

(** *** The callers in [geom.py] and [__init__.py] *)

Module Geom.
Section geom.
Context `{H3}.

(** [get_buffered_boundary_polygon]: the two assignments
    [intermediate_res = max(intermediate_res, res + 1)] and
    [intermediate_res = min(intermediate_res, 15)]. *)
Definition intermediate_res_of (res intermediate_res : Z) : Z :=
  let intermediate_res := Z.max intermediate_res (res + 1) in
  let intermediate_res := Z.min intermediate_res 15 in
  intermediate_res.

(** The boundary children behind
    [get_buffered_boundary_polygon(cell, intermediate_res)]:
    [res = h3.get_resolution(cell)], the two assignments above, and the
    call [cell_boundary_from_children(cell, intermediate_res)], which
    starts with [children_on_boundary_faces(parent, target_res)] (the
    function of [utils.py] when the compiled one is not there). *)
Definition boundary_children (cell : Cell) (intermediate_res : Z)
  : outcome (list Cell) :=
  let res := get_resolution cell in
  let intermediate_res := Z.max intermediate_res (res + 1) in
  let intermediate_res := Z.min intermediate_res 15 in
  children_on_boundary_faces cell intermediate_res all_faces.

(** [get_buffered_boundary_polygon_cpp] of [__init__.py]:
    [int_res = max(res + 1, min(intermediate_res, 15))]. *)
Definition int_res (res intermediate_res : Z) : Z :=
  Z.max (res + 1) (Z.min intermediate_res 15).

End geom.
End Geom.

(** *** More cells of the reference grid *)

Definition cell_33 : Cell := Grid.Mk 0 [3; 3].
Definition cell_1 : Cell := Grid.Mk 0 [1].
Definition cell_5 : Cell := Grid.Mk 0 [5].

#[global] Instance round_trip_step_dec `{H3} rc : Decision (round_trip_step rc).
Proof. unfold round_trip_step. apply _. Defined.

(** A pentagon at resolution 1, its child at position 3 and a child of
    that child. *)
Definition pentagon_40 : Cell := Grid.Mk 4 [0].
Definition cell_404 : Cell := Grid.Mk 4 [0; 4].
Definition cell_4044 : Cell := Grid.Mk 4 [0; 4; 4].

(** A cell at the finest resolution and a cell one level above it. *)
Definition cell_res15 : Cell := Grid.Mk 0 (replicate 15 3).
Definition cell_res14 : Cell := Grid.Mk 0 (replicate 14 3).
(** ** Loops and ranges *)

Lemma range_down_nil start stop : start ≤ stop → range_down start stop = [].
Proof.
  intros Hle. unfold range_down.
  by replace (Z.to_nat (start - stop)) with O by lia.
Qed.

Lemma range_down_cons start stop :
  stop < start → range_down start stop = start :: range_down (start - 1) stop.
Proof.
  intros Hlt. unfold range_down.
  replace (Z.to_nat (start - stop)) with (S (Z.to_nat (start - 1 - stop))) by lia.
  cbn [seq fmap list_fmap]. f_equal; [lia|].
  rewrite <- seq_shift, <- list_fmap_compose.
  apply list_fmap_ext. intros _ i _. simpl. lia.
Qed.

Lemma parity_cases (res : Z) : res `mod` 2 = 0 ∨ res `mod` 2 = 1.
Proof. pose proof (Z.mod_pos_bound res 2). lia. Qed.

Lemma for_each_extend {A B} (f : A → list B) (body : A → list B → outcome (list B))
    (xs : list A) (init : list B) :
  (∀ x r, x ∈ xs → body x r = Return (r ++ f x)) →
  for_each xs body init = Return (init ++ xs ≫= f).
Proof.
  revert init. induction xs as [|x xs IH]; intros init Hbody; simpl.
  - by rewrite app_nil_r.
  - rewrite Hbody by left. simpl.
    rewrite IH, <- app_assoc; [done|].
    intros y r Hy. apply Hbody. by right.
Qed.

Lemma for_each_returned {A B} (f : A → list B)
    (body : A → list B → outcome (list B)) (xs : list A) (init l : list B) :
  (∀ x r l', x ∈ xs → body x r = Return l' → l' = r ++ f x) →
  for_each xs body init = Return l → l = init ++ xs ≫= f.
Proof.
  revert init. induction xs as [|x xs IH]; intros init Hbody; simpl.
  - intros [= <-]. by rewrite app_nil_r.
  - destruct (body x init) as [s| |] eqn:Hx; simpl; [|done..].
    apply Hbody in Hx as ->; [|by left].
    intros Hrun. apply IH in Hrun as ->; [by rewrite <- app_assoc|].
    intros y r l' Hy. apply Hbody. by right.
Qed.

Lemma for_each_ext {A S} (body1 body2 : A → S → outcome S) (xs : list A)
    (init : S) :
  (∀ x s, x ∈ xs → body1 x s = body2 x s) →
  for_each xs body1 init = for_each xs body2 init.
Proof.
  revert init. induction xs as [|x xs IH]; intros init Hbody; simpl; [done|].
  rewrite Hbody by left. destruct (body2 x init); simpl; [|done..].
  apply IH. intros y s Hy. apply Hbody. by right.
Qed.

Lemma for_each_Return_inv {A S} (body : A → S → outcome S) (xs : list A)
    (init l : S) x :
  for_each xs body init = Return l → x ∈ xs →
  ∃ s s', body x s = Return s'.
Proof.
  revert init. induction xs as [|y xs IH]; intros init Hrun Hx;
    [by apply elem_of_nil in Hx|].
  simpl in Hrun. destruct (body y init) as [s'| |] eqn:Hy; simpl in Hrun;
    [|done..].
  apply elem_of_cons in Hx as [->|Hx]; [by eauto|by eapply IH].
Qed.

Lemma for_each_Return_intro {A S} (body : A → S → outcome S) (xs : list A)
    (init : S) :
  (∀ x s, x ∈ xs → ∃ s', body x s = Return s') →
  ∃ l, for_each xs body init = Return l.
Proof.
  revert init. induction xs as [|x xs IH]; intros init Hbody; simpl;
    [by eexists|].
  destruct (Hbody x init) as [s' ->]; [by left|]. simpl.
  apply IH. intros y s Hy. apply Hbody. by right.
Qed.

Lemma for_each_Raise_inv {A S} (body : A → S → outcome S) (xs : list A)
    (init : S) e :
  for_each xs body init = Raise e →
  ∃ x s, x ∈ xs ∧ body x s = Raise e.
Proof.
  revert init. induction xs as [|x xs IH]; intros init; simpl; [done|].
  destruct (body x init) as [s'| |] eqn:Hx; simpl.
  - intros (y & s & Hy & Hrun)%IH. exists y, s. split; [by right|done].
  - intros [= ->]. exists x, init. split; [by left|done].
  - done.
Qed.

Lemma for_each_not_Exhausted {A S} (body : A → S → outcome S) (xs : list A)
    (init : S) :
  (∀ x s, x ∈ xs → body x s ≠ Exhausted) →
  for_each xs body init ≠ Exhausted.
Proof.
  revert init. induction xs as [|x xs IH]; intros init Hbody; simpl; [done|].
  destruct (body x init) as [s'| |] eqn:Hx; simpl; [|done|].
  - apply IH. intros y s Hy. apply Hbody. by right.
  - by destruct (Hbody x init (ltac:(by left))).
Qed.

(** ** The face tables *)

Lemma elem_of_child_mapped_faces (child_mapping : gmap Z (gset Z))
    (faces : gset Z) (x : Z) :
  x ∈ child_mapped_faces child_mapping faces ↔
  ∃ parent_face child_faces,
    parent_face ∈ faces ∧ child_mapping !! parent_face = Some child_faces
    ∧ x ∈ child_faces.
Proof.
  unfold child_mapped_faces.
  apply (set_fold_ind_L (λ acc X, x ∈ acc ↔
    ∃ pf s, pf ∈ X ∧ child_mapping !! pf = Some s ∧ x ∈ s)).
  - split; [by intros ?%not_elem_of_empty|].
    by intros (pf & s & ?%not_elem_of_empty & _).
  - intros pf X acc Hfresh IH.
    assert (∀ pf' s', (pf' ∈ {[pf]} ∪ X ∧ child_mapping !! pf' = Some s' ∧ x ∈ s')
      ↔ (pf' = pf ∧ child_mapping !! pf = Some s' ∧ x ∈ s')
        ∨ (pf' ∈ X ∧ child_mapping !! pf' = Some s' ∧ x ∈ s')) as Hsplit.
    { intros pf' s'. rewrite elem_of_union, elem_of_singleton. split.
      - intros [[-> | Hin] Hrest]; [left | right]; done.
      - intros [(-> & Hrest) | (Hin & Hrest)]; (split; [|done]);
          [by left | by right]. }
    destruct (child_mapping !! pf) as [s|] eqn:Hlk.
    + rewrite elem_of_union, IH. split.
      * intros [(pf' & s' & Hin)|Hx].
        -- exists pf', s'. apply Hsplit. by right.
        -- exists pf, s. apply Hsplit. by left.
      * intros (pf' & s' & [(-> & [= ->] & Hx)|Hin]%Hsplit); [by right|].
        left. eauto.
    + rewrite IH. split.
      * intros (pf' & s' & Hin). exists pf', s'. apply Hsplit. by right.
      * intros (pf' & s' & [(_ & [=] & _)|Hin]%Hsplit). eauto.
Qed.

Lemma child_mapped_faces_empty_mapping (faces : gset Z) :
  child_mapped_faces ∅ faces = ∅.
Proof.
  apply set_eq. intros x. rewrite elem_of_child_mapped_faces.
  split; [|by intros ?%not_elem_of_empty].
  intros (pf & s & _ & Hlk & _). by rewrite lookup_empty in Hlk.
Qed.

Lemma child_mapped_faces_empty_faces (child_mapping : gmap Z (gset Z)) :
  child_mapped_faces child_mapping ∅ = ∅.
Proof.
  apply set_eq. intros x. rewrite elem_of_child_mapped_faces.
  split; [|by intros ?%not_elem_of_empty].
  by intros (pf & s & ?%not_elem_of_empty & _).
Qed.

(** [mapping_dict[parity]] never raises [KeyError]: both parities are keys
    of the four tables. *)
Lemma tables_have_both_parities (b : bool) (res : Z) :
  is_Some (forward_table b !! (res `mod` 2))
  ∧ is_Some (reverse_table b !! (res `mod` 2)).
Proof.
  destruct (parity_cases res) as [-> | ->], b; split;
    apply (bool_decide_unpack _); by vm_compute.
Qed.

(** Position 0 has no entry with faces in either reverse table. *)
Lemma reverse_table_center (b : bool) (res : Z) :
  default ∅ ((reverse_table b !!! (res `mod` 2)) !! 0) = (∅ : gmap Z (gset Z)).
Proof. destruct (parity_cases res) as [-> | ->], b; by vm_compute. Qed.


(** ** The reference grid satisfies the laws *)

Section grid_laws.

Lemma grid_parent_resolution : parent_resolution_law.
Proof.
  intros c k Hk. simpl in *. unfold Grid.resolution, Grid.parent in *. simpl.
  rewrite length_take. lia.
Qed.

Lemma grid_children_resolution : children_resolution_law.
Proof.
  intros c c'. simpl. unfold Grid.children.
  rewrite decide_False by lia.
  replace (Z.to_nat (Grid.resolution c + 1 - Grid.resolution c)) with 1%nat
    by lia.
  simpl. intros (x & ->%list_elem_of_singleton & Hx)%list_elem_of_bind.
  apply list_elem_of_fmap in Hx as (d & -> & _).
  unfold Grid.resolution. simpl. rewrite length_app. simpl. lia.
Qed.

End grid_laws.
(** ** Ascend *)

Section ascend.
Context `{H3}.

Lemma trace_loop_stops rs current_h input_faces :
  Exists stops_walk (walk_cells rs current_h) →
  trace_loop rs current_h input_faces = ∅.
Proof.
  revert current_h input_faces.
  induction rs as [|res rs IH]; intros current_h input_faces Hex; simpl in *.
  - by apply Exists_nil in Hex.
  - destruct (is_pentagon current_h) eqn:Hpent; [done|].
    destruct (decide (cell_to_child_pos current_h (res - 1) = 0)) as [|Hpos];
      [done|].
    case_decide; [done|].
    apply IH. apply Exists_cons in Hex as [[Hp|Hz]|Hex]; simpl in *;
      [congruence|done|done].
Qed.

Lemma trace_valid h input_faces a :
  0 ≤ a < get_resolution h →
  trace_cell_to_ancestor_faces h input_faces (Some a) =
    if decide (input_faces = ∅) then Return ∅
    else Return (trace_loop (range_down (get_resolution h) a) h input_faces).
Proof.
  intros Ha. unfold trace_cell_to_ancestor_faces. simpl.
  destruct (decide (a >= get_resolution h)); [lia|].
  destruct (decide (a < 0)); [lia|]. done.
Qed.

Lemma trace_empty_faces (c : Cell) (a : Z) :
  0 ≤ a < get_resolution c →
  trace_cell_to_ancestor_faces c ∅ (Some a) = Return ∅.
Proof. intros Ha. rewrite trace_valid by done. by rewrite decide_True. Qed.

(** C5.  Pentagon short-circuit in ascend: for a valid ancestor
    resolution [a], if the cell [h] is a pentagon, or some cell of the
    walk from [h] to resolution [a + 1] is a pentagon or has child
    position 0 under its immediate parent, the result is the empty
    set. *)
Theorem ascend_pentagon_short_circuit (h : Cell) (faces : gset Z) (a : Z) :
  0 ≤ a < get_resolution h →
  is_pentagon h = true
    ∨ Exists stops_walk (walk_cells (range_down (get_resolution h) a) h) →
  trace_cell_to_ancestor_faces h faces (Some a) = Return ∅.
Proof.
  intros Ha Hstop. rewrite trace_valid by done.
  case_decide; [done|]. f_equal. apply trace_loop_stops.
  destruct Hstop as [Hpent|Hex]; [|done].
  rewrite range_down_cons by lia. simpl. apply Exists_cons_hd. by left.
Qed.

End ascend.

(** ** Coarsest ancestor *)

Section coarsest.
Context `{H3}.

Lemma coarsest_loop_total fuel res current_h input_faces :
  parent_resolution_law →
  get_resolution current_h = res →
  (Z.to_nat res ≤ fuel)%nat →
  ∃ a, coarsest_loop fuel res current_h input_faces = Return a
       ∧ get_resolution a ≤ res.
Proof.
  intros Hlaw. revert res current_h input_faces.
  induction fuel as [|fuel IH]; intros res current_h input_faces Hres Hfuel;
    simpl; case_decide; try lia; try (eexists; split; [done|lia]).
  rewrite trace_valid by lia.
  destruct (decide (input_faces = ∅)); simpl.
  { rewrite decide_True by done. eexists; split; [done|lia]. }
  case_decide; [eexists; split; [done|lia]|].
  destruct (IH (res - 1) (cell_to_parent current_h (res - 1))
    (trace_loop (range_down (get_resolution current_h) (res - 1))
       current_h input_faces)) as (a & -> & Ha); [apply Hlaw; lia|lia|].
  eexists; split; [done|lia].
Qed.

(** The search never reaches the iteration bound of the model. *)
Lemma coarsest_loop_not_exhausted fuel res current_h input_faces :
  (Z.to_nat res ≤ fuel)%nat →
  coarsest_loop fuel res current_h input_faces ≠ Exhausted.
Proof.
  revert res current_h input_faces.
  induction fuel as [|fuel IH]; intros res current_h input_faces Hfuel;
    simpl; case_decide; try lia; try done.
  unfold trace_cell_to_ancestor_faces. simpl.
  repeat case_decide; simpl; try done; try case_decide; try done;
    apply IH; lia.
Qed.

(** C9.  With an empty face set the search returns the input cell
    itself, for a cell of any resolution: the first one-level trace
    returns the empty set, which ends the search, and at resolution 0
    the loop does not run. *)
Theorem coarsest_empty_faces (h : Cell) :
  cell_to_coarsest_ancestor_on_faces h ∅ = Return h.
Proof.
  unfold cell_to_coarsest_ancestor_on_faces.
  destruct (decide (get_resolution h > 0)) as [Hpos|Hnpos].
  - destruct (Z.to_nat (get_resolution h)) as [|fuel] eqn:Hfuel; [lia|].
    simpl. rewrite decide_True by done.
    rewrite trace_empty_faces by lia. simpl. by rewrite decide_True.
  - destruct (Z.to_nat (get_resolution h)); simpl; by rewrite decide_False.
Qed.

(** C8.  Coarsest-ancestor monotonicity: for a cell [c] of resolution
    at least 1 and a non-empty face set [F], if the one-level trace of
    [F] is non-empty then the search returns a cell of resolution at
    most [resolution(c) - 1]. *)
Theorem coarsest_moves_up (c : Cell) (F S : gset Z) :
  parent_resolution_law →
  1 ≤ get_resolution c →
  F ≠ ∅ →
  trace_cell_to_parent_faces c F = Return S →
  S ≠ ∅ →
  ∃ a, cell_to_coarsest_ancestor_on_faces c F = Return a
       ∧ get_resolution a ≤ get_resolution c - 1.
Proof.
  intros Hlaw Hres HF Htrace HS.
  unfold cell_to_coarsest_ancestor_on_faces.
  destruct (Z.to_nat (get_resolution c)) as [|fuel] eqn:Hfuel; [lia|].
  simpl. rewrite decide_True by lia.
  unfold trace_cell_to_parent_faces in Htrace. rewrite Htrace. simpl.
  rewrite decide_False by done.
  apply coarsest_loop_total; [done|apply Hlaw; lia|lia].
Qed.

End coarsest.

(** ** Descend *)

Section descend.
Context `{H3}.

Lemma h3_cell_to_children_returns current res :
  res ≤ max_resolution →
  h3_cell_to_children current res = Return (cell_to_children current res).
Proof. intros Hres. unfold h3_cell_to_children. by rewrite decide_False by lia. Qed.

Lemma h3_cell_to_children_returned current res l :
  h3_cell_to_children current res = Return l →
  res ≤ max_resolution ∧ l = cell_to_children current res.
Proof.
  unfold h3_cell_to_children. case_decide; [done|]. intros [= <-].
  split; [lia|done].
Qed.

(** The cells returned are those of [boundary_descendants]. *)
Lemma _children_by_face_returned (n fuel : nat) target_res current res faces l :
  target_res = res + Z.of_nat n →
  _children_by_face target_res fuel current res faces = Return l →
  l = boundary_descendants n current res faces.
Proof.
  revert fuel current res faces l.
  induction n as [|n IH]; intros fuel current res faces l Htarget.
  - destruct fuel; simpl; rewrite decide_True by lia; by intros [= <-].
  - destruct fuel as [|fuel]; simpl; rewrite decide_False by lia; [done|].
    destruct (h3_cell_to_children current (res + 1)) as [children| |] eqn:Hch;
      simpl; [|done..].
    apply h3_cell_to_children_returned in Hch as [_ ->].
    intros Hrun. eapply for_each_returned in Hrun; [exact Hrun|].
    intros child result l' _. simpl. fold (reverse_table (is_pentagon current)).
    fold (child_faces current res faces child).
    case_decide; [|intros [= <-]; by rewrite app_nil_r].
    destruct (_children_by_face _ _ _ _ _) as [sub| |] eqn:Hsub; simpl;
      [|done..].
    intros [= <-]. f_equal. eapply IH; [|done]. lia.
Qed.

(** Up to the finest resolution of the grid the recursion returns. *)
Lemma _children_by_face_returns (n fuel : nat) target_res current res faces :
  target_res = res + Z.of_nat n →
  (n ≤ fuel)%nat →
  target_res ≤ max_resolution ∨ n = 0%nat →
  _children_by_face target_res fuel current res faces =
    Return (boundary_descendants n current res faces).
Proof.
  revert fuel current res faces.
  induction n as [|n IH]; intros fuel current res faces Htarget Hfuel Hmax.
  - destruct fuel; simpl; by rewrite decide_True by lia.
  - destruct fuel as [|fuel]; [lia|]. simpl.
    rewrite decide_False by lia.
    rewrite h3_cell_to_children_returns by lia. simpl.
    erewrite for_each_extend; [done|].
    intros child result _. simpl. fold (reverse_table (is_pentagon current)).
    fold (child_faces current res faces child).
    case_decide; [|by rewrite app_nil_r].
    rewrite (IH fuel) by lia. done.
Qed.

(** The only error of the recursion is the one of [h3]. *)
Lemma _children_by_face_raised (fuel : nat) target_res current res faces e :
  _children_by_face target_res fuel current res faces = Raise e →
  e = H3ResDomainError.
Proof.
  revert current res faces.
  induction fuel as [|fuel IH]; intros current res faces; simpl;
    (case_decide; [done|]); [done|].
  unfold h3_cell_to_children. case_decide; simpl; [by intros [= <-]|].
  intros (child & result & _ & Hbody)%for_each_Raise_inv. revert Hbody.
  case_decide; [|done].
  destruct (_children_by_face _ _ _ _ _) as [sub| |] eqn:Hsub; simpl; [done| |done].
  intros [= <-]. by eapply IH.
Qed.

(** The recursion bound of the model is not reached, whatever the
    target. *)
Lemma _children_by_face_not_exhausted (n fuel : nat) target_res current res faces :
  target_res = res + Z.of_nat n →
  (n ≤ fuel)%nat →
  _children_by_face target_res fuel current res faces ≠ Exhausted.
Proof.
  revert fuel current res faces.
  induction n as [|n IH]; intros fuel current res faces Htarget Hfuel.
  - destruct fuel; simpl; by rewrite decide_True by lia.
  - destruct fuel as [|fuel]; [lia|]. simpl.
    rewrite decide_False by lia.
    unfold h3_cell_to_children. case_decide; simpl; [done|].
    apply for_each_not_Exhausted. intros child result _.
    case_decide; [|done].
    destruct (_children_by_face _ _ _ _ _) as [sub| |] eqn:Hsub; simpl; [done..|].
    by eapply (IH fuel) in Hsub; [|lia..].
Qed.

(** The descent returns for every target resolution that passes the
    guard and is a resolution of the grid. *)
Lemma children_on_boundary_faces_returns parent target_res input_faces :
  get_resolution parent ≤ target_res →
  target_res ≤ max_resolution →
  children_on_boundary_faces parent target_res input_faces =
    Return (boundary_descendants
              (Z.to_nat (target_res - get_resolution parent))
              parent (get_resolution parent) input_faces).
Proof.
  intros Hres Hmax. unfold children_on_boundary_faces.
  rewrite decide_False by lia.
  apply _children_by_face_returns; lia || by left.
Qed.

(** The recursion bound of the model is enough for every call. *)
Lemma children_on_boundary_faces_not_exhausted parent target_res input_faces :
  children_on_boundary_faces parent target_res input_faces ≠ Exhausted.
Proof.
  unfold children_on_boundary_faces. case_decide; [done|].
  eapply _children_by_face_not_exhausted; [|done]. lia.
Qed.

Lemma children_on_boundary_faces_self parent input_faces :
  children_on_boundary_faces parent (get_resolution parent) input_faces
  = Return [parent].
Proof.
  unfold children_on_boundary_faces. rewrite decide_False by lia.
  rewrite (_children_by_face_returns 0); [done|lia|lia|by right].
Qed.

Lemma children_on_boundary_faces_returned parent target_res input_faces l :
  children_on_boundary_faces parent target_res input_faces = Return l →
  get_resolution parent ≤ target_res
  ∧ l = boundary_descendants (Z.to_nat (target_res - get_resolution parent))
          parent (get_resolution parent) input_faces.
Proof.
  unfold children_on_boundary_faces. case_decide; [done|].
  intros Hrun. split; [lia|].
  eapply _children_by_face_returned; [|done]. lia.
Qed.

Lemma boundary_descendants_resolution n current res faces c :
  children_resolution_law →
  get_resolution current = res →
  c ∈ boundary_descendants n current res faces →
  get_resolution c = res + Z.of_nat n.
Proof.
  intros Hlaw. revert current res faces.
  induction n as [|n IH]; intros current res faces Hres Hc; simpl in Hc.
  - apply list_elem_of_singleton in Hc as ->. lia.
  - apply list_elem_of_bind in Hc as (child & Hc & Hchild).
    case_decide; [|by apply elem_of_nil in Hc].
    apply IH in Hc; [lia|]. subst res. by apply Hlaw.
Qed.

Lemma child_faces_center current res faces child :
  cell_to_child_pos child res = 0 → child_faces current res faces child = ∅.
Proof.
  intros Hpos. unfold child_faces.
  by rewrite Hpos, reverse_table_center, child_mapped_faces_empty_mapping.
Qed.


(** C4.  All descend results are at the target resolution: for
    [target_res >= resolution(p)] every cell of the list the call
    returns has resolution exactly [target_res], when [target_res]
    equals [resolution(p)] the call returns exactly [[p]], and up to the
    finest resolution of the grid the call does return a list. *)
Theorem descend_results_at_target (p : Cell) (target_res : Z) (faces : gset Z) :
  children_resolution_law →
  get_resolution p ≤ target_res →
  (∀ l, children_on_boundary_faces p target_res faces = Return l →
     ∀ c, c ∈ l → get_resolution c = target_res)
  ∧ (target_res = get_resolution p →
     children_on_boundary_faces p target_res faces = Return [p])
  ∧ (target_res ≤ max_resolution →
     ∃ l, children_on_boundary_faces p target_res faces = Return l).
Proof.
  intros Hlaw Hres. split; [|split].
  - intros l [_ ->]%children_on_boundary_faces_returned c Hc.
    eapply boundary_descendants_resolution in Hc; [|done..]. lia.
  - intros ->. apply children_on_boundary_faces_self.
  - intros Hmax. eexists. by apply children_on_boundary_faces_returns.
Qed.


End descend.

(** ** Ascend followed by descend *)

(** The keys of the forward tables are the positions 0 to 6. *)
Lemma forward_table_positions (b : bool) (res pos : Z) :
  is_Some ((forward_table b !!! (res `mod` 2)) !! pos) →
  pos ∈ [0; 1; 2; 3; 4; 5; 6].
Proof.
  intros Hsome%elem_of_dom. revert Hsome.
  assert (dom (forward_table b !!! (res `mod` 2)) = fset [0; 1; 2; 3; 4; 5; 6])
    as ->; [|unfold fset; apply elem_of_list_to_set].
  destruct (parity_cases res) as [-> | ->], b; by vm_compute.
Qed.

(** One level up and back down, on the tables: the parent faces a child
    position maps to (from all six child faces) select, in the reverse
    table of the same parity and kind, a non-empty set of child faces. *)
Lemma forward_then_reverse (b : bool) (res pos : Z) :
  let face_map := default ∅ ((forward_table b !!! (res `mod` 2)) !! pos) in
  let child_mapping := default ∅ ((reverse_table b !!! (res `mod` 2)) !! pos) in
  let F : gset Z := set_omap (λ f, face_map !! f) all_faces in
  F ≠ ∅ → child_mapped_faces child_mapping F ≠ ∅.
Proof.
  destruct (decide (pos ∈ [0; 1; 2; 3; 4; 5; 6])) as [Hpos|Hpos].
  - destruct (parity_cases res) as [-> | ->], b;
      repeat (apply elem_of_cons in Hpos as [-> | Hpos]);
      try (by apply elem_of_nil in Hpos);
      (intros face_map child_mapping F HF; apply (bool_decide_unpack _);
       revert HF; apply (bool_decide_unpack _); by vm_compute).
  - destruct ((forward_table b !!! (res `mod` 2)) !! pos) as [fm|] eqn:Hfm.
    { destruct Hpos. eapply forward_table_positions. by rewrite Hfm. }
    simpl. intros HF. exfalso. apply HF.
    apply set_eq. intros x. rewrite elem_of_set_omap.
    split; [|by intros ?%not_elem_of_empty].
    intros (f & _ & Hlk). by rewrite lookup_empty in Hlk.
Qed.

Lemma all_faces_nonempty : all_faces ≠ ∅.
Proof. by apply (bool_decide_unpack _). Qed.

Section round_trip.
Context `{H3}.

(** C1.  Round-trip of ascend and descend: for a non-pentagon cell [c]
    at resolution [r >= 1], if tracing all six faces to the parent
    gives a non-empty set [F], then [c] is in the list returned by the
    descent from the parent to resolution [r] with the faces [F].  The
    facts about the grid index used are that [r] is a resolution of the
    grid and that the parent of [c] at [r - 1] has resolution [r - 1]
    and lists [c] among its children. *)
Theorem ascend_descend_round_trip (c : Cell) (r : Z) (F : gset Z) :
  is_pentagon c = false →
  get_resolution c = r →
  1 ≤ r ≤ max_resolution →
  get_resolution (cell_to_parent c (r - 1)) = r - 1 →
  c ∈ cell_to_children (cell_to_parent c (r - 1)) r →
  trace_cell_to_parent_faces c all_faces = Return F →
  F ≠ ∅ →
  ∃ l, children_on_boundary_faces (cell_to_parent c (r - 1)) r F = Return l
       ∧ c ∈ l.
Proof.
  intros Hpent Hr Hr1 Hparent Hchild Htrace HF.
  unfold trace_cell_to_parent_faces in Htrace.
  rewrite trace_valid, decide_False in Htrace by (lia || apply all_faces_nonempty).
  rewrite Hr, range_down_cons, range_down_nil in Htrace by lia.
  cbn [trace_loop] in Htrace. rewrite Hpent in Htrace.
  destruct (decide (cell_to_child_pos c (r - 1) = 0)) as [|Hpos];
    [by injection Htrace as <-|].
  fold (forward_table (is_pentagon (cell_to_parent c (r - 1)))) in Htrace.
  case_decide as Hmapped; injection Htrace as <-; [done|].
  rewrite children_on_boundary_faces_returns by lia.
  eexists; split; [done|].
  rewrite Hparent. replace (Z.to_nat (r - (r - 1))) with 1%nat by lia.
  cbn [boundary_descendants]. apply list_elem_of_bind.
  exists c. replace (r - 1 + 1) with r by lia. split; [|done].
  rewrite decide_True; [by left|].
  unfold child_faces. replace (r - 1 + 1) with r by lia.
  by apply forward_then_reverse.
Qed.

End round_trip.

(** ** The object model agrees with the functions *)

(** Steps through the primitive operations of [Obj.M]. *)
Ltac run :=
  cbv beta iota delta [mbind mret Obj.M_bind Obj.M_ret
    Obj.h3_get_resolution Obj.h3_is_pentagon Obj.h3_cell_to_child_pos
    Obj.h3_cell_to_parent Obj.h3_cell_to_children
    Obj.forward_lookup Obj.reverse_lookup
    Obj.emit Obj.new_set Obj.read Obj.update Obj.raise Obj.exhausted];
  cbn [Obj.sets Obj.log].

Section obj_lemmas.
Context `{H3}.

Lemma bind_run {A B} (m : Obj.M A) (k : A → Obj.M B) σ a σ' :
  m σ = (Return a, σ') → (m ≫= k) σ = k a σ'.
Proof. intros Hm. unfold mbind, Obj.M_bind. by rewrite Hm. Qed.

Lemma lookup_new (sets : list (gset Z)) (s : gset Z) :
  (sets ++ [s]) !! length sets = Some s.
Proof. by apply list_lookup_middle. Qed.

Lemma lookup_total_new (sets : list (gset Z)) (s : gset Z) :
  (sets ++ [s]) !!! length sets = s.
Proof. apply list_lookup_total_correct, lookup_new. Qed.

Lemma new_set_empty_run σ (sets0 : list (gset Z)) :
  sets0 `prefix_of` Obj.sets σ →
  ∃ l' σ', Obj.new_set ∅ σ = (Return l', σ')
    ∧ Obj.sets σ' !! l' = Some ∅ ∧ sets0 `prefix_of` Obj.sets σ'.
Proof.
  intros Hpre. eexists _, _. split; [done|]. simpl. split.
  - apply lookup_new.
  - by apply prefix_app_r.
Qed.

Lemma trace_loop_run rs current_h l F σ :
  Obj.sets σ !! l = Some F →
  ∃ l' σ', Obj.trace_loop rs current_h l σ = (Return l', σ')
    ∧ Obj.sets σ' !! l' = Some (trace_loop rs current_h F)
    ∧ Obj.sets σ `prefix_of` Obj.sets σ'.
Proof.
  revert current_h l F σ.
  induction rs as [|res rs IH]; intros current_h l F σ Hl.
  - exists l, σ. done.
  - cbn [Obj.trace_loop trace_loop]. run.
    destruct (is_pentagon current_h).
    { by apply (new_set_empty_run (Obj.State _ _)). }
    case_decide.
    { by apply (new_set_empty_run (Obj.State _ _)). }
    rewrite lookup_total_new, (list_lookup_total_correct _ _ _ Hl).
    case_decide.
    { apply (new_set_empty_run (Obj.State _ _)). simpl. by apply prefix_app_r. }
    edestruct IH as (l' & σ' & -> & Hl' & Hpre); [apply lookup_new|].
    eexists _, _. split; [done|]. split; [done|].
    simpl in Hpre. etrans; [|done]. by apply prefix_app_r.
Qed.

Lemma trace_run h l F res_parent σ :
  Obj.sets σ !! l = Some F →
  let σ1 := Obj.State (Obj.sets σ) (Obj.log σ ++ [Obj.ev_get_resolution h]) in
  match trace_cell_to_ancestor_faces h F res_parent with
  | Return F' =>
    ∃ l' σ', Obj.trace_cell_to_ancestor_faces h (Some l) res_parent σ
             = (Return l', σ')
      ∧ Obj.sets σ' !! l' = Some F'
      ∧ Obj.sets σ `prefix_of` Obj.sets σ'
  | Raise e =>
    Obj.trace_cell_to_ancestor_faces h (Some l) res_parent σ = (Raise e, σ1)
  | Exhausted => False
  end.
Proof.
  intros Hl σ1. unfold trace_cell_to_ancestor_faces,
    Obj.trace_cell_to_ancestor_faces. run. simpl.
  do 2 (case_decide; [done|]). cbn beta. cbn [Obj.sets].
  rewrite (list_lookup_total_correct _ _ _ Hl). case_decide.
  - by apply (new_set_empty_run (Obj.State _ _)).
  - by apply (trace_loop_run _ _ _ _ (Obj.State _ _)).
Qed.

(** The set returned by a trace is never the one passed in. *)
Lemma trace_loop_result rs current_h l σ l' σ' :
  Obj.trace_loop rs current_h l σ = (Return l', σ') →
  (rs = [] ∧ l' = l) ∨ (length (Obj.sets σ) ≤ l')%nat.
Proof.
  revert current_h l σ.
  induction rs as [|res rs IH]; intros current_h l σ.
  - intros [= -> _]. by left.
  - cbn [Obj.trace_loop]. run. intros Hrun. right. revert Hrun.
    destruct (is_pentagon current_h); [by intros [= <- _]|].
    case_decide; [by intros [= <- _]|].
    case_decide; [intros [= <- _]; rewrite length_app; lia|].
    intros [[_ ->]|Hnew]%IH; [done|].
    simpl in Hnew. rewrite length_app in Hnew. lia.
Qed.

Lemma trace_returns_new_set h input_faces res_parent σ :
  Obj.returns_new_set
    (Obj.trace_cell_to_ancestor_faces h input_faces res_parent) σ.
Proof.
  intros l' σ'. unfold Obj.trace_cell_to_ancestor_faces. run.
  case_decide; [done|]. case_decide; [done|]. cbn beta.
  case_decide; [by intros [= <- _]|].
  rewrite range_down_cons by lia.
  by intros [[? _]|Hnew]%trace_loop_result.
Qed.

Lemma trace_parent_returns_new_set h input_faces σ :
  Obj.returns_new_set (Obj.trace_cell_to_parent_faces h input_faces) σ.
Proof.
  intros l' σ'. unfold Obj.trace_cell_to_parent_faces. run.
  by intros Hnew%trace_returns_new_set.
Qed.

Lemma bind_run_outcome {A B} (m : Obj.M A) (k : A → Obj.M B) σ o σ' :
  m σ = (o, σ') →
  (m ≫= k) σ =
    match o with
    | Return a => k a σ'
    | Raise e => (Raise e, σ')
    | Exhausted => (Exhausted, σ')
    end.
Proof. intros Hm. unfold mbind, Obj.M_bind. rewrite Hm. by destruct o. Qed.

Lemma coarsest_loop_run fuel res current_h l F σ :
  Obj.sets σ !! l = Some F →
  ∃ σ', Obj.coarsest_loop fuel res current_h l σ
          = (coarsest_loop fuel res current_h F, σ')
    ∧ Obj.sets σ `prefix_of` Obj.sets σ'.
Proof.
  revert res current_h l F σ.
  induction fuel as [|fuel IH]; intros res current_h l F σ Hl;
    cbn [Obj.coarsest_loop coarsest_loop]; (case_decide; [|by eexists]).
  { by eexists. }
  pose proof (trace_run current_h l F (Some (res - 1)) σ Hl) as Htrace.
  destruct (trace_cell_to_ancestor_faces current_h F (Some (res - 1)))
    as [F'|e|]; [|by erewrite bind_run_outcome by done; eexists|done].
  destruct Htrace as (l' & σ' & Hrun & Hl' & Hpre).
  erewrite bind_run by done. run. simpl.
  rewrite (list_lookup_total_correct _ _ _ Hl').
  case_decide; [by eexists|]. cbn beta.
  edestruct (IH (res - 1) (cell_to_parent current_h (res - 1)) l' F'
    (Obj.State (Obj.sets σ') (Obj.log σ' ++
       [Obj.ev_cell_to_parent current_h (res - 1)]))) as (σ'' & -> & Hpre');
    [done|].
  eexists. split; [done|]. by etrans.
Qed.

Lemma child_mapped_faces_union_list (child_mapping : gmap Z (gset Z))
    (faces : gset Z) :
  child_mapped_faces child_mapping faces =
    ⋃ (omap (λ f, child_mapping !! f) (elements faces)).
Proof.
  apply set_eq. intros x.
  rewrite elem_of_child_mapped_faces, elem_of_union_list. split.
  - intros (pf & s & Hpf & Hlk & Hx). exists s. split; [|done].
    apply list_elem_of_omap. exists pf. by rewrite elem_of_elements.
  - intros (s & (pf & Hpf & Hlk)%list_elem_of_omap & Hx).
    exists pf, s. by rewrite <- elem_of_elements.
Qed.

Lemma update_mapped_faces_run child_mapping r faces acc σ :
  Obj.sets σ !! r = Some acc →
  Obj.update_mapped_faces child_mapping r faces σ =
    (Return (),
     Obj.State
       (<[r := acc ∪ ⋃ (omap (λ f, child_mapping !! f) faces)]> (Obj.sets σ))
       (Obj.log σ)).
Proof.
  unfold Obj.update_mapped_faces. revert acc σ.
  induction faces as [|f faces IH]; intros acc σ Hr; cbn [for_each].
  - simpl. rewrite (right_id_L ∅ (∪)), list_insert_id by done. by destruct σ.
  - cbn [omap list_omap]. destruct (child_mapping !! f) as [s|]; run.
    + rewrite (IH (acc ∪ s)); simpl.
      * rewrite (list_lookup_total_correct _ _ _ Hr), list_insert_insert_eq.
        by rewrite (assoc_L (∪)).
      * rewrite (list_lookup_total_correct _ _ _ Hr).
        apply list_lookup_insert_eq. by eapply lookup_lt_Some.
    + by apply IH.
Qed.

Lemma for_each_run {A S} (Inv : Obj.state → Prop)
    (body_obj : A → S → Obj.M S) (body : A → S → outcome S) xs s σ :
  (∀ x s σ, Inv σ →
     ∃ σ', body_obj x s σ = (body x s, σ') ∧ Inv σ') →
  Inv σ →
  ∃ σ', for_each xs body_obj s σ = (for_each xs body s, σ') ∧ Inv σ'.
Proof.
  intros Hbody. revert s σ.
  induction xs as [|x xs IH]; intros s σ Hinv; cbn [for_each].
  - by eexists.
  - destruct (Hbody x s σ Hinv) as (σ' & Hrun & Hinv').
    erewrite bind_run_outcome by done.
    destruct (body x s) as [s'| |]; simpl; [by apply IH|by eexists..].
Qed.

Lemma _children_by_face_run target_res fuel current res l F σ :
  Obj.sets σ !! l = Some F →
  ∃ σ', Obj._children_by_face target_res fuel current res l σ
          = (_children_by_face target_res fuel current res F, σ')
    ∧ Obj.sets σ `prefix_of` Obj.sets σ'.
Proof.
  revert current res l F σ.
  induction fuel as [|fuel IH]; intros current res l F σ Hl;
    cbn [Obj._children_by_face _children_by_face]; run;
    (case_decide; [by eexists|]); [by eexists|].
  cbn beta. cbn [Obj.sets Obj.log]. unfold h3_cell_to_children.
  case_decide; [by eexists|]. cbn beta iota. cbn [Obj.sets Obj.log].
  change (Return (cell_to_children current (res + 1)) ≫= ?k)
    with (k (cell_to_children current (res + 1))). cbn beta.
  apply (for_each_run (λ σi, Obj.sets σ `prefix_of` Obj.sets σi)); [|done].
  intros child result σi Hpre. cbn beta.
  assert (Obj.sets σi !! l = Some F) as Hli by by eapply prefix_lookup_Some.
  erewrite (update_mapped_faces_run _ _ _ ∅); cbn [Obj.sets Obj.log];
    [|apply lookup_new].
  rewrite (list_lookup_total_correct _ _ _ (lookup_app_l_Some _ _ _ _ Hli)).
  rewrite list_lookup_total_insert_eq
    by (rewrite length_app; simpl; lia).
  rewrite (left_id_L ∅ (∪)), <- child_mapped_faces_union_list.
  rewrite insert_app_r_alt, Nat.sub_diag by done. cbn [insert list_insert].
  case_decide; cbn beta.
  - edestruct (IH child (res + 1) (length (Obj.sets σi))) as (σ' & -> & Hpre');
      [apply lookup_new|].
    simpl in Hpre'.
    match goal with |- context [_children_by_face ?a ?b ?c ?d ?e] =>
      destruct (_children_by_face a b c d e) end; simpl;
      (eexists; split; [done|]);
      (etrans; [done|]; etrans; [|done]; by apply prefix_app_r).
  - eexists; split; [done|]. simpl. etrans; [done|]. by apply prefix_app_r.
Qed.

Lemma children_on_boundary_faces_run parent target_res l F σ :
  Obj.sets σ !! l = Some F →
  ∃ σ', Obj.children_on_boundary_faces parent target_res (Some l) σ
          = (children_on_boundary_faces parent target_res F, σ')
    ∧ Obj.sets σ `prefix_of` Obj.sets σ'.
Proof.
  intros Hl. unfold Obj.children_on_boundary_faces,
    children_on_boundary_faces. run. simpl.
  case_decide; [by eexists|]. cbn beta.
  by apply (_children_by_face_run _ _ _ _ _ _ (Obj.State _ _)).
Qed.

Lemma cell_to_coarsest_ancestor_on_faces_run h l F σ :
  Obj.sets σ !! l = Some F →
  ∃ σ', Obj.cell_to_coarsest_ancestor_on_faces h (Some l) σ
          = (cell_to_coarsest_ancestor_on_faces h F, σ')
    ∧ Obj.sets σ `prefix_of` Obj.sets σ'.
Proof.
  intros Hl. unfold Obj.cell_to_coarsest_ancestor_on_faces,
    cell_to_coarsest_ancestor_on_faces. run. simpl.
  by apply (coarsest_loop_run _ _ _ _ _ (Obj.State _ _)).
Qed.

Lemma trace_cell_to_parent_faces_run h l F σ :
  Obj.sets σ !! l = Some F →
  match trace_cell_to_parent_faces h F with
  | Return F' =>
    ∃ l' σ', Obj.trace_cell_to_parent_faces h (Some l) σ = (Return l', σ')
      ∧ Obj.sets σ' !! l' = Some F'
      ∧ Obj.sets σ `prefix_of` Obj.sets σ'
  | Raise e =>
    ∃ σ', Obj.trace_cell_to_parent_faces h (Some l) σ = (Raise e, σ')
      ∧ Obj.sets σ' = Obj.sets σ
  | Exhausted => False
  end.
Proof.
  intros Hl. unfold Obj.trace_cell_to_parent_faces,
    trace_cell_to_parent_faces.
  pose proof (trace_run h l F (Some (get_resolution h - 1))
    (Obj.State (Obj.sets σ) (Obj.log σ ++ [Obj.ev_get_resolution h])) Hl)
    as Htrace.
  destruct (trace_cell_to_ancestor_faces h F _) as [F'|e|]; [| |done].
  - destruct Htrace as (l' & σ' & Hrun & Hl' & Hpre). by exists l', σ'.
  - by eexists.
Qed.

End obj_lemmas.

(** ** Effects: errors, empty face sets, and the sets of the caller *)

Section obj_claims.
Context `{H3}.


Lemma entries_app (l1 l2 : list Obj.event) :
  Obj.entries (l1 ++ l2) = Obj.entries l1 ++ Obj.entries l2.
Proof.
  induction l1 as [|e l1 IH]; [done|]. destruct e; simpl; by rewrite ?IH.
Qed.

Lemma for_each_skip {A S} (xs : list A) (s : S) :
  for_each xs (λ _ s', Return s') s = Return s.
Proof. induction xs; simpl; done. Qed.

(** With an empty face set no child is entered: the only entry into
    [_children_by_face] is the call made by the outer function. *)
Lemma children_empty_faces_run parent target_res l σ :
  Obj.sets σ !! l = Some ∅ →
  get_resolution parent < target_res →
  get_resolution parent < max_resolution →
  ∃ σ', Obj.children_on_boundary_faces parent target_res (Some l) σ
          = (Return [], σ')
    ∧ Obj.entries (Obj.log σ') =
        Obj.entries (Obj.log σ) ++ [(parent, get_resolution parent, l)].
Proof.
  intros Hl Hres Hmax. unfold Obj.children_on_boundary_faces. run. simpl.
  rewrite decide_False by lia. cbn beta.
  destruct (Z.to_nat (target_res - get_resolution parent)) as [|fuel] eqn:Hfuel;
    [lia|].
  cbn [Obj._children_by_face]. run. rewrite decide_False by lia.
  cbn beta. cbn [Obj.sets Obj.log].
  rewrite (decide_False (P:=max_resolution < get_resolution parent + 1)) by lia.
  cbn beta iota. cbn [Obj.sets Obj.log].
  match goal with |- context [for_each ?xs ?body_obj ?s ?σ1] =>
    destruct (for_each_run
      (λ σi, Obj.sets σ `prefix_of` Obj.sets σi
             ∧ Obj.entries (Obj.log σi) =
               Obj.entries (Obj.log σ) ++ [(parent, get_resolution parent, l)])
      body_obj (λ _ result, Return result) xs s σ1)
      as (σ' & Hrun & _ & Hlog);
      [| |exists σ'; split; [|done]; rewrite for_each_skip in Hrun; exact Hrun]
  end.
  - intros child result σi [Hpre Hlog]. cbn beta.
    assert (Obj.sets σi !! l = Some ∅) as Hli by by eapply prefix_lookup_Some.
    rewrite (list_lookup_total_correct _ _ _ (lookup_app_l_Some _ _ _ _ Hli)).
    rewrite elements_empty. cbn. rewrite lookup_total_new.
    rewrite decide_False by (by intros []). 
    eexists. split; [done|]. simpl. split.
    + etrans; [done|]. by apply prefix_app_r.
    + by rewrite !entries_app, Hlog, !app_nil_r.
  - simpl. split; [done|]. rewrite !entries_app. simpl.
    by rewrite !app_nil_r.
Qed.

Lemma prefix_preserves {A} (m : Obj.M A) σ :
  Obj.sets σ `prefix_of` Obj.sets (m σ).2 → Obj.preserves_sets m σ.
Proof. intros Hpre r s Hr. by eapply prefix_lookup_Some. Qed.

Lemma trace_raises_iff h faces res_parent :
  raises (trace_cell_to_ancestor_faces h faces res_parent) ↔
  default (get_resolution h - 1) res_parent >= get_resolution h
  ∨ default (get_resolution h - 1) res_parent < 0.
Proof.
  unfold trace_cell_to_ancestor_faces. simpl.
  repeat case_decide; simpl; intuition lia.
Qed.

Lemma children_raises_iff p target_res faces :
  target_res ≤ max_resolution →
  raises (children_on_boundary_faces p target_res faces) ↔
  target_res < get_resolution p.
Proof.
  intros Hmax. destruct (decide (target_res < get_resolution p)) as [Hlt|Hge].
  - unfold children_on_boundary_faces. by rewrite decide_True.
  - rewrite children_on_boundary_faces_returns by lia. simpl. intuition.
Qed.

Lemma children_raises_own_iff p target_res faces :
  children_on_boundary_faces p target_res faces = Raise target_res_too_small ↔
  target_res < get_resolution p.
Proof.
  unfold children_on_boundary_faces. case_decide; [done|].
  split; [|done]. intros Hrun. apply _children_by_face_raised in Hrun. discriminate.
Qed.

Lemma children_raises_other p target_res faces e :
  children_on_boundary_faces p target_res faces = Raise e →
  e ≠ target_res_too_small →
  e = H3ResDomainError
  ∧ get_resolution p ≤ target_res ∧ max_resolution < target_res.
Proof.
  intros Hrun He.
  destruct (decide (target_res < get_resolution p)) as [Hlt|Hge].
  { apply (children_raises_own_iff p target_res faces) in Hlt. congruence. }
  destruct (decide (target_res ≤ max_resolution)) as [Hmax|Hmax].
  { rewrite children_on_boundary_faces_returns in Hrun by lia. done. }
  unfold children_on_boundary_faces in Hrun. rewrite decide_False in Hrun by done.
  apply _children_by_face_raised in Hrun. split; [done|lia].
Qed.

(** C3 (amended).  Raises-iff for both entry points: the ascent raises
    exactly when the ancestor resolution (by default the resolution of
    the cell minus one) is not below the resolution of the cell or is
    negative; the descent raises its own error exactly when the target
    resolution is below the resolution of the parent, raises nothing
    else for a target resolution of the grid, and any other error is
    the one of [h3], for a target finer than the grid has.  In each
    error case of the module the call ends right after
    [get_resolution], with no table lookup, no other grid call, no
    entry into the recursion and no new set. *)
Theorem raises_iff_invalid_resolution (h : Cell) (faces : gset Z)
    (res_parent : option Z) (target_res : Z) (input_faces : option Obj.ref)
    (σ : Obj.state) :
  let a := default (get_resolution h - 1) res_parent in
  let σ_err :=
    Obj.State (Obj.sets σ) (Obj.log σ ++ [Obj.ev_get_resolution h]) in
  (raises (trace_cell_to_ancestor_faces h faces res_parent)
     ↔ a >= get_resolution h ∨ a < 0)
  ∧ (children_on_boundary_faces h target_res faces
       = Raise target_res_too_small
     ↔ target_res < get_resolution h)
  ∧ (target_res ≤ max_resolution →
     (raises (children_on_boundary_faces h target_res faces)
      ↔ target_res < get_resolution h))
  ∧ (∀ e, children_on_boundary_faces h target_res faces = Raise e →
       e ≠ target_res_too_small →
       e = H3ResDomainError
       ∧ get_resolution h ≤ target_res ∧ max_resolution < target_res)
  ∧ (a >= get_resolution h ∨ a < 0 →
     ∃ e, Obj.trace_cell_to_ancestor_faces h input_faces res_parent σ
          = (Raise e, σ_err))
  ∧ (target_res < get_resolution h →
     Obj.children_on_boundary_faces h target_res input_faces σ
     = (Raise target_res_too_small, σ_err)).
Proof.
  intros a σ_err. split; [apply trace_raises_iff|].
  split; [apply children_raises_own_iff|].
  split; [apply children_raises_iff|].
  split; [apply children_raises_other|]. split.
  - intros Ha. unfold Obj.trace_cell_to_ancestor_faces. run. fold a.
    case_decide; [by eexists|]. case_decide; [by eexists|]. lia.
  - intros Ht. unfold Obj.children_on_boundary_faces. run.
    by rewrite decide_True.
Qed.

(** C7.  Empty input faces yield empty ascend output: for an ancestor
    resolution [a] with [0 <= a < resolution(c)] the call on the empty
    set returns the empty set without raising; on the object model the
    call makes one new empty set and records [get_resolution] only, so
    no level of the walk is looked up. *)
Theorem ascend_empty_faces (c : Cell) (a : Z) :
  0 ≤ a < get_resolution c →
  trace_cell_to_ancestor_faces c ∅ (Some a) = Return ∅
  ∧ ∀ σ l, Obj.sets σ !! l = Some ∅ →
      Obj.trace_cell_to_ancestor_faces c (Some l) (Some a) σ =
        (Return (length (Obj.sets σ)),
         Obj.State (Obj.sets σ ++ [∅])
                   (Obj.log σ ++ [Obj.ev_get_resolution c])).
Proof.
  intros Ha. split; [by apply trace_empty_faces|].
  intros σ l Hl. unfold Obj.trace_cell_to_ancestor_faces. run. simpl.
  do 2 rewrite decide_False by lia. cbn beta. cbn [Obj.sets].
  by rewrite (list_lookup_total_correct _ _ _ Hl), decide_True.
Qed.

(** C2 (amended).  Empty face set in descend: for a parent [p] that is
    not at the finest resolution of the grid and
    [target_res > resolution(p)] the call on the empty set returns the
    empty list, and the only entry into [_children_by_face] is the one
    made by the outer function: no child is recursed into. *)
Theorem descend_empty_faces (p : Cell) (target_res : Z) :
  get_resolution p < target_res →
  get_resolution p < max_resolution →
  children_on_boundary_faces p target_res ∅ = Return []
  ∧ ∀ σ l, Obj.sets σ !! l = Some ∅ →
      ∃ σ', Obj.children_on_boundary_faces p target_res (Some l) σ
              = (Return [], σ')
        ∧ Obj.entries (Obj.log σ') =
            Obj.entries (Obj.log σ) ++ [(p, get_resolution p, l)].
Proof.
  intros Hres Hmax.
  split; [|intros σ l Hl; by apply children_empty_faces_run].
  destruct (children_empty_faces_run p target_res 0%nat (Obj.State [∅] []))
    as (σ1 & Hrun1 & _); [done..|].
  destruct (children_on_boundary_faces_run p target_res 0%nat ∅
    (Obj.State [∅] [])) as (σ2 & Hrun2 & _); [done|].
  congruence.
Qed.

Lemma faces_exist_lookup σ input_faces (dflt : Obj.ref) :
  faces_exist σ input_faces → (dflt < 4)%nat →
  ∃ F, Obj.sets σ !! default dflt input_faces = Some F.
Proof.
  intros [Hdflt Hin] Hd. apply lookup_lt_is_Some.
  destruct input_faces as [r|]; simpl; [by apply Hin|lia].
Qed.

(** C10.  No mutation of the caller's face set: each of the four
    functions leaves every set object that exists when it is called
    with the elements it had, the object passed as [input_faces] and
    the shared default objects among them; the sets it changes are the
    ones it made, and a set it returns is one it made. *)
Theorem input_faces_not_mutated (h : Cell) (res_parent : option Z)
    (target_res : Z) (input_faces : option Obj.ref) (σ : Obj.state) :
  faces_exist σ input_faces →
  Obj.preserves_sets
    (Obj.trace_cell_to_ancestor_faces h input_faces res_parent) σ
  ∧ Obj.preserves_sets (Obj.trace_cell_to_parent_faces h input_faces) σ
  ∧ Obj.preserves_sets
      (Obj.cell_to_coarsest_ancestor_on_faces h input_faces) σ
  ∧ Obj.preserves_sets
      (Obj.children_on_boundary_faces h target_res input_faces) σ
  ∧ Obj.returns_new_set
      (Obj.trace_cell_to_ancestor_faces h input_faces res_parent) σ
  ∧ Obj.returns_new_set (Obj.trace_cell_to_parent_faces h input_faces) σ.
Proof.
  intros Hexist.
  split; [|split; [|split; [|split;
    [|split; [apply trace_returns_new_set
             |apply trace_parent_returns_new_set]]]]];
    apply prefix_preserves.
  - destruct (faces_exist_lookup σ input_faces
      Obj.trace_cell_to_ancestor_faces_default) as [F HF];
      [done|unfold Obj.trace_cell_to_ancestor_faces_default; lia|].
    pose proof (trace_run h _ F res_parent σ HF) as Hrun.
    change (Obj.trace_cell_to_ancestor_faces h input_faces res_parent)
      with (Obj.trace_cell_to_ancestor_faces h
              (Some (default Obj.trace_cell_to_ancestor_faces_default
                       input_faces)) res_parent).
    destruct (trace_cell_to_ancestor_faces h F res_parent); [| |done].
    + by destruct Hrun as (l' & σ' & -> & _ & Hpre).
    + by rewrite Hrun.
  - destruct (faces_exist_lookup σ input_faces
      Obj.trace_cell_to_parent_faces_default) as [F HF];
      [done|unfold Obj.trace_cell_to_parent_faces_default; lia|].
    pose proof (trace_cell_to_parent_faces_run h _ F σ HF) as Hrun.
    change (Obj.trace_cell_to_parent_faces h input_faces)
      with (Obj.trace_cell_to_parent_faces h
              (Some (default Obj.trace_cell_to_parent_faces_default
                       input_faces))).
    destruct (trace_cell_to_parent_faces h F); [| |done].
    + by destruct Hrun as (l' & σ' & -> & _ & Hpre).
    + destruct Hrun as (σ' & -> & Hsets). simpl. by rewrite Hsets.
  - destruct (faces_exist_lookup σ input_faces
      Obj.cell_to_coarsest_ancestor_on_faces_default) as [F HF];
      [done|unfold Obj.cell_to_coarsest_ancestor_on_faces_default; lia|].
    destruct (cell_to_coarsest_ancestor_on_faces_run h _ F σ HF)
      as (σ' & Hrun & Hpre).
    change (Obj.cell_to_coarsest_ancestor_on_faces h input_faces)
      with (Obj.cell_to_coarsest_ancestor_on_faces h
              (Some (default Obj.cell_to_coarsest_ancestor_on_faces_default
                       input_faces))).
    by rewrite Hrun.
  - destruct (faces_exist_lookup σ input_faces
      Obj.children_on_boundary_faces_default) as [F HF];
      [done|unfold Obj.children_on_boundary_faces_default; lia|].
    destruct (children_on_boundary_faces_run h target_res _ F σ HF)
      as (σ' & Hrun & Hpre).
    change (Obj.children_on_boundary_faces h target_res input_faces)
      with (Obj.children_on_boundary_faces h target_res
              (Some (default Obj.children_on_boundary_faces_default
                       input_faces))).
    by rewrite Hrun.
Qed.

End obj_claims.

(** ** The calls of the test suite, on the reference grid *)

(** [test_trace_cell_to_parent_faces_returns_subset] *)
Example test_trace_cell_to_parent_faces_returns_subset :
  trace_cell_to_parent_faces Grid.cell_86283082 (fset [1]) = Return (fset [5])
  ∧ trace_cell_to_parent_faces Grid.cell_86283082 (fset [2; 3])
    = Return (fset [1])
  ∧ trace_cell_to_parent_faces Grid.cell_86283082 (fset [4; 5; 6])
    = Return (fset [5])
  ∧ trace_cell_to_parent_faces Grid.cell_86283082 all_faces
    = Return (fset [1; 5]).
Proof. repeat split; vm_compute; reflexivity. Qed.

(** [test_trace_cell_to_ancestor_faces_valid]: two levels up the walk
    meets a centre child. *)
Example test_trace_cell_to_ancestor_faces_valid :
  trace_cell_to_ancestor_faces Grid.cell_86283082 (fset [1; 2]) (Some (6 - 2))
  = Return ∅.
Proof. vm_compute. reflexivity. Qed.

(** [test_trace_cell_to_ancestor_faces_invalid_resolution] *)
Example test_trace_cell_to_ancestor_faces_invalid_resolution :
  trace_cell_to_ancestor_faces Grid.cell_86283082 (fset [1]) (Some 10)
  = Raise (res_parent_not_less 10 6).
Proof. reflexivity. Qed.

(** [test_cell_to_coarsest_ancestor_on_faces_returns_ancestor] *)
Example test_cell_to_coarsest_ancestor_on_faces_returns_ancestor :
  cell_to_coarsest_ancestor_on_faces Grid.cell_86283082 (fset [1; 2; 3])
  = Return (cell_to_parent Grid.cell_86283082 5).
Proof. vm_compute. reflexivity. Qed.

(** The scenario of the specification: from a hexagonal base cell the
    descent to resolution 2 returns 24 of the 49 descendants, and not the
    centre child of the centre child. *)
Example base_cell_boundary_at_resolution_2 :
  ∃ l, children_on_boundary_faces Grid.base0 2 all_faces = Return l
       ∧ length l = 24%nat
       ∧ length (cell_to_children Grid.base0 2) = 49%nat
       ∧ Grid.Mk 0 [0; 0] ∉ l.
Proof.
  eexists. split; [vm_compute; reflexivity|].
  split; [reflexivity|]. split; [reflexivity|].
  apply (bool_decide_unpack _). vm_compute. exact I.
Qed.

(** A call without [input_faces] on the loaded module: the four default
    sets still hold the six faces afterwards. *)
Example default_faces_after_call :
  take 4 (Obj.sets (Obj.children_on_boundary_faces Grid.base0 2 None
                      Obj.loaded).2)
  = replicate 4 all_faces.
Proof. vm_compute. reflexivity. Qed.

(** ** The theorems on the reference grid *)

Ltac by_computation := apply (bool_decide_unpack _); vm_compute; exact I.

Lemma ascend_descend_round_trip_witness :
  (is_pentagon Grid.cell_3 = false ∧ get_resolution Grid.cell_3 = 1
   ∧ 1 ≤ 1 ≤ max_resolution
   ∧ get_resolution (cell_to_parent Grid.cell_3 (1 - 1)) = 1 - 1
   ∧ Grid.cell_3 ∈ cell_to_children (cell_to_parent Grid.cell_3 (1 - 1)) 1
   ∧ trace_cell_to_parent_faces Grid.cell_3 all_faces = Return (fset [2; 3])
   ∧ fset [2; 3] ≠ ∅)
  ∧ ∃ l, children_on_boundary_faces (cell_to_parent Grid.cell_3 (1 - 1)) 1
           (fset [2; 3]) = Return l ∧ Grid.cell_3 ∈ l.
Proof.
  assert (Grid.cell_3 ∈ cell_to_children (cell_to_parent Grid.cell_3 (1 - 1)) 1)
    as Hchild by by_computation.
  assert (fset [2; 3] ≠ ∅) as Hne by by_computation.
  assert (trace_cell_to_parent_faces Grid.cell_3 all_faces
          = Return (fset [2; 3])) as Htrace by (vm_compute; reflexivity).
  assert (1 ≤ 1 ≤ max_resolution) as Hr by (vm_compute; split; discriminate).
  split.
  - repeat split; try done; apply Hr.
  - apply (ascend_descend_round_trip Grid.cell_3 1 (fset [2; 3]));
      first [reflexivity | assumption].
Defined.

Lemma descend_empty_faces_counterexample :
  get_resolution Grid.base0 ≤ 0
  ∧ children_on_boundary_faces Grid.base0 0 ∅ = Return [Grid.base0]
  ∧ children_on_boundary_faces Grid.base0 0 ∅ ≠ Return [].
Proof. split; [vm_compute; discriminate|]. split; [reflexivity|discriminate]. Qed.

Lemma descend_empty_faces_witness :
  (get_resolution Grid.base0 < 2 ∧ get_resolution Grid.base0 < max_resolution)
  ∧ children_on_boundary_faces Grid.base0 2 ∅ = Return [].
Proof.
  assert (get_resolution Grid.base0 < 2) as Hres by (vm_compute; reflexivity).
  assert (get_resolution Grid.base0 < max_resolution) as Hmax
    by (vm_compute; reflexivity).
  split; [by split|].
  exact (proj1 (descend_empty_faces Grid.base0 2 Hres Hmax)).
Defined.

Lemma raises_iff_invalid_resolution_counterexample :
  get_resolution cell_res15 = 15
  ∧ children_on_boundary_faces cell_res15 16 all_faces = Raise H3ResDomainError
  ∧ ¬ (raises (children_on_boundary_faces cell_res15 16 all_faces)
       ↔ 16 < get_resolution cell_res15)
  ∧ ∃ σ', Obj.children_on_boundary_faces cell_res14 16 None Obj.loaded
          = (Raise H3ResDomainError, σ')
      ∧ (1 < length (Obj.entries (Obj.log σ')))%nat.
Proof.
  split; [reflexivity|]. split; [vm_compute; reflexivity|]. split.
  - intros [Hlt _]. assert (16 < get_resolution cell_res15) as Habs
      by (apply Hlt; vm_compute; exact I).
    vm_compute in Habs. discriminate.
  - eexists. split; [vm_compute; reflexivity|]. vm_compute. lia.
Qed.

Lemma descend_results_at_target_witness :
  (children_resolution_law ∧ get_resolution Grid.base0 ≤ 2)
  ∧ ∃ l, children_on_boundary_faces Grid.base0 2 all_faces = Return l
         ∧ (∀ c, c ∈ l → get_resolution c = 2).
Proof.
  assert (get_resolution Grid.base0 ≤ 2) as Hres by (vm_compute; discriminate).
  assert (2 ≤ max_resolution) as Hmax by (vm_compute; discriminate).
  split; [split; [exact grid_children_resolution|exact Hres]|].
  destruct (descend_results_at_target Grid.base0 2 all_faces
              grid_children_resolution Hres) as (Hall & _ & Hret).
  destruct (Hret Hmax) as [l Hl].
  exists l. split; [exact Hl|exact (Hall l Hl)].
Defined.

Lemma ascend_pentagon_short_circuit_witness :
  (0 ≤ 0 < get_resolution Grid.cell_305
   ∧ (is_pentagon Grid.cell_305 = true
      ∨ Exists stops_walk
          (walk_cells (range_down (get_resolution Grid.cell_305) 0)
             Grid.cell_305)))
  ∧ trace_cell_to_ancestor_faces Grid.cell_305 all_faces (Some 0) = Return ∅.
Proof.
  assert (0 ≤ 0 < get_resolution Grid.cell_305) as Ha by (vm_compute; done).
  assert (is_pentagon Grid.cell_305 = true
      ∨ Exists stops_walk
          (walk_cells (range_down (get_resolution Grid.cell_305) 0)
             Grid.cell_305)) as Hstop.
  { right. vm_compute. apply Exists_cons_tl, Exists_cons_hd. right. reflexivity. }
  split; [by split|].
  exact (ascend_pentagon_short_circuit Grid.cell_305 all_faces 0 Ha Hstop).
Defined.


Lemma ascend_empty_faces_witness :
  0 ≤ 1 < get_resolution Grid.cell_325
  ∧ trace_cell_to_ancestor_faces Grid.cell_325 ∅ (Some 1) = Return ∅.
Proof.
  assert (0 ≤ 1 < get_resolution Grid.cell_325) as Ha by (vm_compute; done).
  split; [exact Ha|]. exact (proj1 (ascend_empty_faces Grid.cell_325 1 Ha)).
Defined.

Lemma coarsest_moves_up_witness :
  (parent_resolution_law ∧ 1 ≤ get_resolution Grid.cell_325 ∧ all_faces ≠ ∅
   ∧ trace_cell_to_parent_faces Grid.cell_325 all_faces = Return (fset [1; 5])
   ∧ fset [1; 5] ≠ ∅)
  ∧ ∃ a, cell_to_coarsest_ancestor_on_faces Grid.cell_325 all_faces = Return a
         ∧ get_resolution a ≤ get_resolution Grid.cell_325 - 1.
Proof.
  assert (1 ≤ get_resolution Grid.cell_325) as Hres by (vm_compute; discriminate).
  assert (fset [1; 5] ≠ ∅) as Hne by by_computation.
  assert (trace_cell_to_parent_faces Grid.cell_325 all_faces
          = Return (fset [1; 5])) as Htrace by (vm_compute; reflexivity).
  split; [repeat split; first [exact grid_parent_resolution | assumption
                               | exact all_faces_nonempty]|].
  exact (coarsest_moves_up Grid.cell_325 all_faces (fset [1; 5])
           grid_parent_resolution Hres all_faces_nonempty Htrace Hne).
Defined.

Lemma input_faces_not_mutated_witness :
  faces_exist Obj.loaded None
  ∧ Obj.preserves_sets
      (Obj.children_on_boundary_faces Grid.base0 2 None) Obj.loaded.
Proof.
  assert (faces_exist Obj.loaded None) as Hexist.
  { split; [vm_compute; done|]. intros r [=]. }
  split; [exact Hexist|].
  exact (proj1 (proj2 (proj2 (proj2
    (input_faces_not_mutated Grid.base0 None 2 None Obj.loaded Hexist))))).
Defined.

(** ** The forward and the reverse tables *)

Lemma inverse_entries_spec fm cm pf cf :
  inverse_entries fm cm →
  cf ∈ default ∅ (cm !! pf) ↔ fm !! cf = Some pf.
Proof.
  intros [Hf Hr]. split.
  - destruct (cm !! pf) as [s|] eqn:Hs; simpl; [|by intros ?%not_elem_of_empty].
    intros Hcf. by apply (Hr pf s Hs).
  - intros Hfm. by apply (Hf cf pf).
Qed.

Lemma reverse_table_positions (b : bool) (res pos : Z) :
  is_Some ((reverse_table b !!! (res `mod` 2)) !! pos) →
  pos ∈ [0; 1; 2; 3; 4; 5; 6].
Proof.
  intros Hsome%elem_of_dom. revert Hsome.
  assert (dom (reverse_table b !!! (res `mod` 2)) = fset [0; 1; 2; 3; 4; 5; 6])
    as ->; [|unfold fset; apply elem_of_list_to_set].
  destruct (parity_cases res) as [-> | ->], b; by vm_compute.
Qed.

Lemma entries_outside (b : bool) (res pos : Z) :
  pos ∉ [0; 1; 2; 3; 4; 5; 6] →
  forward_entry b (res `mod` 2) pos = ∅ ∧ reverse_entry b (res `mod` 2) pos = ∅.
Proof.
  intros Hpos. unfold forward_entry, reverse_entry. split.
  - destruct (_ !! pos) eqn:Hlk; [|done].
    destruct Hpos. eapply forward_table_positions. by rewrite Hlk.
  - destruct (_ !! pos) eqn:Hlk; [|done].
    destruct Hpos. eapply reverse_table_positions. by rewrite Hlk.
Qed.

Lemma forward_reverse_inverse (pent : bool) (res pos : Z) :
  pent = false ∨ pos ≠ 3 →
  inverse_entries (forward_entry pent (res `mod` 2) pos)
    (reverse_entry pent (res `mod` 2) pos).
Proof.
  intros Hok. destruct (decide (pos ∈ [0; 1; 2; 3; 4; 5; 6])) as [Hpos|Hpos].
  - destruct (parity_cases res) as [-> | ->], pent;
      repeat (apply elem_of_cons in Hpos as [-> | Hpos]);
      try (by apply elem_of_nil in Hpos);
      try (by destruct Hok);
      (apply (bool_decide_unpack _); by vm_compute).
  - destruct (entries_outside pent res pos Hpos) as [-> ->].
    split; apply map_Forall_empty.
Qed.

(** X1.  The reverse tables are the forward tables turned around: for
    every parity and every position, a child face is in the reverse
    entry of a parent face exactly when the forward entry maps it to
    that parent face.  This holds for the hexagon tables at every
    position and for the pentagon tables at every position but 3, where
    it fails for both parities. *)
Theorem tables_inverse (pent : bool) (res pos : Z) :
  (pent = false ∨ pos ≠ 3 →
   ∀ pf cf,
     cf ∈ default ∅ (reverse_entry pent (res `mod` 2) pos !! pf)
     ↔ forward_entry pent (res `mod` 2) pos !! cf = Some pf)
  ∧ ∃ pf cf,
      forward_entry true (res `mod` 2) 3 !! cf = Some pf
      ∧ cf ∉ default ∅ (reverse_entry true (res `mod` 2) 3 !! pf).
Proof.
  split.
  - intros Hok pf cf. by apply inverse_entries_spec, forward_reverse_inverse.
  - destruct (parity_cases res) as [-> | ->].
    + exists 2, 5. split; [by vm_compute|].
      apply (bool_decide_unpack _). by vm_compute.
    + exists 4, 1. split; [by vm_compute|].
      apply (bool_decide_unpack _). by vm_compute.
Qed.

(** ** Ascend: the faces returned *)

Lemma forward_entry_image (b : bool) (res pos : Z) :
  map_img (forward_entry b (res `mod` 2) pos) ⊆ all_faces
  ∧ (size (map_img (forward_entry b (res `mod` 2) pos) : gset Z) ≤ 2)%nat.
Proof.
  destruct (decide (pos ∈ [0; 1; 2; 3; 4; 5; 6])) as [Hpos|Hpos].
  - destruct (parity_cases res) as [-> | ->], b;
      repeat (apply elem_of_cons in Hpos as [-> | Hpos]);
      try (by apply elem_of_nil in Hpos);
      (apply (bool_decide_unpack _); by vm_compute).
  - destruct (entries_outside b res pos Hpos) as [-> _].
    rewrite map_img_empty_L. split; [apply empty_subseteq|].
    rewrite size_empty. lia.
Qed.

Section trace_properties.
Context `{H3}.

Lemma trace_loop_empty rs current_h : trace_loop rs current_h ∅ = ∅.
Proof.
  destruct rs as [|res rs]; simpl; [done|].
  destruct (is_pentagon current_h); [done|]. case_decide; [done|].
  rewrite decide_True; [done|]. apply set_omap_empty.
Qed.

Lemma mapped_faces_image (fm : gmap Z Z) (F : gset Z) :
  (set_omap (λ f, fm !! f) F : gset Z) ⊆ map_img fm.
Proof.
  intros y (f & _ & Hlk)%elem_of_set_omap. by eapply elem_of_map_img_2.
Qed.

Lemma trace_loop_image res rs current_h F :
  trace_loop (res :: rs) current_h F = ∅
  ∨ ∃ b res' pos,
      trace_loop (res :: rs) current_h F
        ⊆ map_img (forward_entry b (res' `mod` 2) pos).
Proof.
  revert res current_h F.
  induction rs as [|res' rs IH]; intros res current_h F.
  - simpl. destruct (is_pentagon current_h); [by left|].
    case_decide; [by left|]. case_decide; [by left|].
    right. eexists _, res, _. apply mapped_faces_image.
  - cbn [trace_loop]. destruct (is_pentagon current_h); [by left|].
    case_decide; [by left|]. case_decide; [by left|]. apply IH.
Qed.

(** X2.  Whatever faces are passed in, a trace that returns gives a set
    of at most two faces, all between 1 and 6. *)
Theorem trace_result_faces h F res_parent S :
  trace_cell_to_ancestor_faces h F res_parent = Return S →
  S ⊆ all_faces ∧ (size S ≤ 2)%nat.
Proof.
  unfold trace_cell_to_ancestor_faces. simpl.
  set (a := default (get_resolution h - 1) res_parent).
  case_decide; [done|]. case_decide; [done|].
  case_decide; [intros [= <-]; split; [apply empty_subseteq|by rewrite size_empty; lia]|].
  intros [= <-]. rewrite range_down_cons by lia.
  destruct (trace_loop_image (get_resolution h)
    (range_down (get_resolution h - 1) a) h F) as [->|(b & res & pos & Hsub)].
  - split; [apply empty_subseteq|rewrite size_empty; lia].
  - destruct (forward_entry_image b res pos) as [Himg Hsize]. split.
    + by etrans.
    + etrans; [by apply subseteq_size|done].
Qed.

End trace_properties.

(** ** Ascend: unions of faces and intermediate ancestors *)

Section walk.
Context `{H3}.

Lemma range_down_app r b a :
  a ≤ b → b ≤ r → range_down r a = range_down r b ++ range_down b a.
Proof.
  intros Hab Hbr. remember (Z.to_nat (r - b)) as n eqn:Hn.
  revert r Hbr Hn. induction n as [|n IH]; intros r Hbr Hn.
  - assert (r = b) as -> by lia. by rewrite (range_down_nil b b) by lia.
  - rewrite (range_down_cons r a), (range_down_cons r b) by lia.
    simpl. f_equal. apply IH; lia.
Qed.

Lemma trace_loop_app rs1 rs2 current_h F :
  trace_loop (rs1 ++ rs2) current_h F =
    trace_loop rs2 (walk_end rs1 current_h) (trace_loop rs1 current_h F).
Proof.
  revert current_h F. induction rs1 as [|res rs1 IH]; intros current_h F;
    [done|].
  cbn [app trace_loop walk_end].
  destruct (is_pentagon current_h); [by rewrite trace_loop_empty|].
  case_decide; [by rewrite trace_loop_empty|].
  case_decide; [by rewrite trace_loop_empty|]. apply IH.
Qed.

Lemma trace_loop_union rs current_h (F G : gset Z) :
  trace_loop rs current_h (F ∪ G) =
    trace_loop rs current_h F ∪ trace_loop rs current_h G.
Proof.
  revert current_h F G. induction rs as [|res rs IH]; intros current_h F G;
    [done|].
  cbn [trace_loop].
  destruct (is_pentagon current_h); [by rewrite (left_id_L ∅ (∪))|].
  case_decide; [by rewrite (left_id_L ∅ (∪))|].
  rewrite set_omap_union_L.
  set (fm := default ∅ _).
  set (mF := set_omap (λ f, fm !! f) F : gset Z).
  set (mG := set_omap (λ f, fm !! f) G : gset Z).
  assert (∀ X : gset Z, (if decide (X = ∅) then ∅
            else trace_loop rs (cell_to_parent current_h (res - 1)) X)
          = trace_loop rs (cell_to_parent current_h (res - 1)) X) as Hskip.
  { intros X. case_decide as HX; [|done]. by rewrite HX, trace_loop_empty. }
  by rewrite !Hskip, IH.
Qed.

Lemma trace_valid_loop h F a :
  0 ≤ a < get_resolution h →
  trace_cell_to_ancestor_faces h F (Some a) =
    Return (trace_loop (range_down (get_resolution h) a) h F).
Proof.
  intros Ha. rewrite trace_valid by done.
  case_decide as HF; [|done]. by rewrite HF, trace_loop_empty.
Qed.

(** X3.  Tracing a union of face sets gives the union of the traces,
    so a trace grows with its input faces. *)
Theorem trace_union h (F G S1 S2 : gset Z) res_parent :
  trace_cell_to_ancestor_faces h F res_parent = Return S1 →
  trace_cell_to_ancestor_faces h G res_parent = Return S2 →
  trace_cell_to_ancestor_faces h (F ∪ G) res_parent = Return (S1 ∪ S2)
  ∧ (F ⊆ G → S1 ⊆ S2).
Proof.
  intros HF HG.
  assert (trace_cell_to_ancestor_faces h (F ∪ G) res_parent = Return (S1 ∪ S2))
    as HFG.
  { revert HF HG. unfold trace_cell_to_ancestor_faces. simpl.
    case_decide; [done|]. case_decide; [done|].
    set (rs := range_down _ _).
    assert (∀ X : gset Z, (if decide (X = ∅) then Return ∅
              else Return (trace_loop rs h X)) = Return (trace_loop rs h X))
      as Hskip.
    { intros X. case_decide as HX; [|done]. by rewrite HX, trace_loop_empty. }
    rewrite !Hskip. intros [= <-] [= <-]. by rewrite trace_loop_union. }
  split; [done|]. intros Hsub.
  assert (F ∪ G = G) as Heq by (apply set_eq; intros x; rewrite elem_of_union;
    split; [intros [?%Hsub|?]; done|by right]).
  rewrite Heq, HG in HFG. injection HFG as ->. apply union_subseteq_l.
Qed.

Lemma walk_end_app rs1 rs2 c :
  walk_end (rs1 ++ rs2) c = walk_end rs2 (walk_end rs1 c).
Proof. revert c. induction rs1; intros c; simpl; [done|]. by rewrite IHrs1. Qed.

Lemma walk_end_parent c r b :
  parent_resolution_law → parent_compose_law →
  get_resolution c = r → 0 ≤ b < r →
  walk_end (range_down r b) c = cell_to_parent c b.
Proof.
  intros Hres Hcomp Hr Hb. remember (Z.to_nat (r - b)) as n eqn:Hn.
  revert c r Hr Hb Hn. induction n as [|n IH]; intros c r Hr Hb Hn; [lia|].
  rewrite range_down_cons by lia. cbn [walk_end].
  destruct (decide (b = r - 1)) as [->|Hne].
  - by rewrite range_down_nil by lia.
  - rewrite (IH _ (r - 1)); [|apply Hres; lia|lia|lia].
    apply Hcomp; lia.
Qed.

(** X4.  Tracing to an ancestor resolution [a] is tracing to any
    resolution [b] in between and then tracing the result from the
    ancestor at [b] to [a]. *)
Theorem trace_composes h F a b :
  parent_resolution_law → parent_compose_law →
  0 ≤ a → a < b → b < get_resolution h →
  trace_cell_to_ancestor_faces h F (Some a) =
    (G ← trace_cell_to_ancestor_faces h F (Some b);
     trace_cell_to_ancestor_faces (cell_to_parent h b) G (Some a)).
Proof.
  intros Hres Hcomp Ha Hab Hb.
  rewrite !trace_valid_loop by lia. simpl.
  rewrite trace_valid_loop by (rewrite Hres; lia).
  rewrite Hres by lia.
  rewrite (range_down_app (get_resolution h) b a), trace_loop_app by lia.
  by rewrite walk_end_parent by (done || lia).
Qed.

End walk.

(** ** Coarsest ancestor: what is found *)

Section coarsest_found.
Context `{H3}.

Lemma walk_end_resolution c r b :
  parent_resolution_law →
  get_resolution c = r → 0 ≤ b ≤ r →
  get_resolution (walk_end (range_down r b) c) = b.
Proof.
  intros Hres Hr Hb. remember (Z.to_nat (r - b)) as n eqn:Hn.
  revert c r Hr Hb Hn. induction n as [|n IH]; intros c r Hr Hb Hn.
  - rewrite range_down_nil by lia. simpl. lia.
  - rewrite range_down_cons by lia. cbn [walk_end].
    apply IH; [apply Hres; lia|lia|lia].
Qed.

Lemma faces_at_step h F j :
  0 < j ≤ get_resolution h →
  faces_at h F (j - 1) = trace_loop [j] (cell_at h j) (faces_at h F j).
Proof.
  intros Hj. unfold faces_at, cell_at.
  rewrite (range_down_app (get_resolution h) j (j - 1)) by lia.
  rewrite trace_loop_app, (range_down_cons j), range_down_nil by lia. done.
Qed.

Lemma cell_at_step h j :
  0 < j ≤ get_resolution h →
  cell_at h (j - 1) = cell_to_parent (cell_at h j) (j - 1).
Proof.
  intros Hj. unfold cell_at.
  rewrite (range_down_app (get_resolution h) j (j - 1)) by lia.
  rewrite walk_end_app, (range_down_cons j), range_down_nil by lia. done.
Qed.

Lemma faces_at_empty_below h F j j' :
  j' ≤ j → j ≤ get_resolution h → faces_at h F j = ∅ → faces_at h F j' = ∅.
Proof.
  intros Hj' Hj Hempty. unfold faces_at in *.
  rewrite (range_down_app (get_resolution h) j j') by lia.
  by rewrite trace_loop_app, Hempty, trace_loop_empty.
Qed.

Lemma coarsest_loop_characterization fuel h F res :
  parent_resolution_law →
  0 ≤ res ≤ get_resolution h →
  (Z.to_nat res ≤ fuel)%nat →
  (∀ j, res ≤ j < get_resolution h → faces_at h F j ≠ ∅) →
  ∃ k, 0 ≤ k ≤ res
    ∧ coarsest_loop fuel res (cell_at h res) (faces_at h F res)
      = Return (cell_at h k)
    ∧ (∀ j, k ≤ j < get_resolution h → faces_at h F j ≠ ∅)
    ∧ (0 < k → faces_at h F (k - 1) = ∅).
Proof.
  intros Hlaw. revert res.
  induction fuel as [|fuel IH]; intros res Hres Hfuel Hne; simpl.
  { rewrite decide_False by lia. exists res. repeat split; try done; lia. }
  case_decide as Hpos;
    [|exists res; repeat split; try done; lia].
  assert (get_resolution (cell_at h res) = res) as Hcr
    by (unfold cell_at; apply walk_end_resolution; done || lia).
  rewrite trace_valid_loop by lia. rewrite Hcr.
  rewrite (range_down_cons res), range_down_nil by lia.
  rewrite <- faces_at_step by lia. simpl.
  case_decide as Hempty.
  - exists res. repeat split; try done; lia.
  - rewrite <- cell_at_step by lia.
    destruct (IH (res - 1)) as (k & Hk & -> & Habove & Hbelow); [lia|lia| |].
    + intros j Hj. destruct (decide (j = res - 1)) as [->|]; [done|].
      apply Hne. lia.
    + exists k. repeat split; try done; lia.
Qed.

(** X5.  The search returns the ancestor of [h] at the least resolution
    [k] to which the trace of the faces is non-empty ([h] itself when no
    trace is): the trace to [j] is non-empty exactly for [j >= k]. *)
Theorem coarsest_characterization h F :
  parent_resolution_law → parent_compose_law →
  0 ≤ get_resolution h →
  ∃ k A, cell_to_coarsest_ancestor_on_faces h F = Return A
    ∧ 0 ≤ k ≤ get_resolution h
    ∧ (k = get_resolution h ∧ A = h
       ∨ k < get_resolution h ∧ A = cell_to_parent h k)
    ∧ ∀ j, 0 ≤ j < get_resolution h →
        (trace_cell_to_ancestor_faces h F (Some j) ≠ Return ∅ ↔ k ≤ j).
Proof.
  intros Hres Hcomp Hr0.
  destruct (coarsest_loop_characterization
    (Z.to_nat (get_resolution h)) h F (get_resolution h))
    as (k & Hk & Hrun & Habove & Hbelow); [done|lia|lia|lia|].
  assert (cell_at h (get_resolution h) = h) as Hcell
    by (unfold cell_at; by rewrite range_down_nil by lia).
  assert (faces_at h F (get_resolution h) = F) as Hfaces
    by (unfold faces_at; by rewrite range_down_nil by lia).
  rewrite Hcell, Hfaces in Hrun.
  exists k, (cell_at h k). split; [done|]. split; [done|]. split.
  - destruct (decide (k = get_resolution h)) as [->|Hne].
    + left. split; [done|]. unfold cell_at. by rewrite range_down_nil by lia.
    + right. split; [lia|]. unfold cell_at.
      by rewrite walk_end_parent by (done || lia).
  - intros j Hj. rewrite trace_valid_loop by lia. fold (faces_at h F j). split.
    + intros Hne. destruct (decide (k ≤ j)) as [|Hlt]; [done|].
      destruct Hne. f_equal.
      apply (faces_at_empty_below h F (k - 1)); [lia|lia|]. apply Hbelow. lia.
    + intros Hkj [= Hempty]. apply (Habove j); [lia|done].
Qed.

End coarsest_found.

(** ** Descend: descendants, duplicates, unions of faces *)

Section descend_structure.
Context `{H3}.

Lemma elem_of_boundary_descendants_S n current res faces c :
  c ∈ boundary_descendants (S n) current res faces ↔
  ∃ child, child ∈ cell_to_children current (res + 1)
    ∧ child_faces current res faces child ≠ ∅
    ∧ c ∈ boundary_descendants n child (res + 1)
            (child_faces current res faces child).
Proof.
  cbn [boundary_descendants]. rewrite list_elem_of_bind. split.
  - intros (child & Hc & Hchild). exists child.
    case_decide; [done|by apply elem_of_nil in Hc].
  - intros (child & Hchild & Hne & Hc). exists child.
    by rewrite decide_True.
Qed.

Lemma boundary_descendants_empty_faces n current res :
  boundary_descendants (S n) current res ∅ = [].
Proof.
  apply elem_of_nil_inv. intros c.
  rewrite elem_of_boundary_descendants_S. intros (child & _ & Hne & _).
  apply Hne. unfold child_faces. apply child_mapped_faces_empty_faces.
Qed.

Lemma boundary_descendants_parent n current res faces c :
  children_resolution_law → parent_of_child_law → parent_compose_law →
  get_resolution current = res → 0 ≤ res →
  c ∈ boundary_descendants (S n) current res faces →
  cell_to_parent c res = current.
Proof.
  intros Hres Hpar Hcomp. revert current res faces.
  induction n as [|n IH]; intros current res faces Hcur Hres0
    (child & Hchild & Hne & Hc)%elem_of_boundary_descendants_S.
  - apply list_elem_of_singleton in Hc as ->. subst res. by apply Hpar.
  - assert (get_resolution child = res + 1) as Hchild_res
      by (subst res; by apply Hres).
    pose proof Hc as Hc_res.
    apply boundary_descendants_resolution in Hc_res; [|done..].
    apply IH in Hc; [|done|lia].
    rewrite <- (Hcomp c res (res + 1)) by lia.
    rewrite Hc. subst res. by apply Hpar.
Qed.

(** X6.  Every cell the descent returns has the target resolution and
    is the parent itself (equal resolutions) or has the parent as its
    ancestor at the resolution of the parent. *)
Theorem descend_descendants p target_res faces l c :
  children_resolution_law → parent_of_child_law → parent_compose_law →
  0 ≤ get_resolution p →
  children_on_boundary_faces p target_res faces = Return l →
  c ∈ l →
  get_resolution c = target_res
  ∧ (target_res = get_resolution p ∧ c = p
     ∨ get_resolution p < target_res ∧ cell_to_parent c (get_resolution p) = p).
Proof.
  intros Hres Hpar Hcomp Hp0 Hrun Hc.
  apply children_on_boundary_faces_returned in Hrun as [Hge ->]. split.
  { eapply boundary_descendants_resolution in Hc; [|done..]. lia. }
  destruct (Z.to_nat (target_res - get_resolution p)) as [|n] eqn:Hn.
  - left. apply list_elem_of_singleton in Hc. split; [lia|done].
  - right. split; [lia|]. by eapply boundary_descendants_parent.
Qed.

Lemma boundary_descendants_nodup n current res faces :
  children_resolution_law → parent_of_child_law → parent_compose_law →
  children_nodup_law →
  get_resolution current = res → 0 ≤ res →
  NoDup (boundary_descendants n current res faces).
Proof.
  intros Hres Hpar Hcomp Hnodup. revert current res faces.
  induction n as [|n IH]; intros current res faces Hcur Hres0.
  - apply NoDup_singleton.
  - cbn [boundary_descendants]. apply NoDup_bind.
    + intros x1 x2 y Hx1 Hx2 Hy1 Hy2.
      destruct (decide (child_faces current res faces x1 ≠ ∅));
        [|by apply elem_of_nil in Hy1].
      destruct (decide (child_faces current res faces x2 ≠ ∅));
        [|by apply elem_of_nil in Hy2].
      assert (get_resolution x1 = res + 1) by (subst res; by apply Hres).
      assert (get_resolution x2 = res + 1) by (subst res; by apply Hres).
      destruct n as [|n].
      * apply list_elem_of_singleton in Hy1, Hy2. congruence.
      * apply boundary_descendants_parent in Hy1, Hy2; [|done || lia..].
        congruence.
    + intros child Hchild. case_decide; [|apply NoDup_nil_2].
      apply IH; [|lia]. subst res. by apply Hres.
    + subst res. apply Hnodup.
Qed.

(** X7.  The descent returns no cell twice. *)
Theorem descend_no_duplicates p target_res faces l :
  children_resolution_law → parent_of_child_law → parent_compose_law →
  children_nodup_law →
  0 ≤ get_resolution p →
  children_on_boundary_faces p target_res faces = Return l →
  NoDup l.
Proof.
  intros Hres Hpar Hcomp Hnodup Hp0 Hrun.
  apply children_on_boundary_faces_returned in Hrun as [Hge ->].
  by apply boundary_descendants_nodup.
Qed.

Lemma child_faces_union current res (F G : gset Z) child :
  child_faces current res (F ∪ G) child =
    child_faces current res F child ∪ child_faces current res G child.
Proof.
  unfold child_faces. apply set_eq. intros x.
  rewrite elem_of_union, !elem_of_child_mapped_faces. split.
  - intros (pf & s & [Hpf|Hpf]%elem_of_union & Hs & Hx); [left|right];
      by exists pf, s.
  - intros [(pf & s & Hpf & Hs & Hx)|(pf & s & Hpf & Hs & Hx)];
      exists pf, s; (split; [|done]); apply elem_of_union; [by left|by right].
Qed.

Lemma boundary_descendants_union n current res (F G : gset Z) c :
  c ∈ boundary_descendants n current res (F ∪ G) ↔
  c ∈ boundary_descendants n current res F
  ∨ c ∈ boundary_descendants n current res G.
Proof.
  revert current res F G. induction n as [|n IH]; intros current res F G.
  - simpl. rewrite list_elem_of_singleton. tauto.
  - rewrite !elem_of_boundary_descendants_S. split.
    + intros (child & Hchild & Hne & Hc).
      rewrite child_faces_union in Hc, Hne. destruct n as [|n].
      * destruct (decide (child_faces current res F child = ∅)) as [HF|HF].
        -- right. exists child. rewrite HF, (left_id_L ∅ (∪)) in Hne. done.
        -- left. by exists child.
      * apply IH in Hc as [Hc|Hc]; [left|right]; exists child;
          (split; [done|]); (split; [|done]); intros Hempty;
          rewrite Hempty, boundary_descendants_empty_faces in Hc;
          by apply elem_of_nil in Hc.
    + intros [(child & Hchild & Hne & Hc)|(child & Hchild & Hne & Hc)];
        exists child; (split; [done|]); rewrite child_faces_union; split.
      * intros [? _]%empty_union_L. done.
      * apply IH. by left.
      * intros [_ ?]%empty_union_L. done.
      * apply IH. by right.
Qed.

(** Where the recursion returns for two face sets, it returns for
    their union: a child entered for the union is entered for one of the
    two. *)
Lemma _children_by_face_union_returns fuel target_res current res
    (F G : gset Z) lF lG :
  _children_by_face target_res fuel current res F = Return lF →
  _children_by_face target_res fuel current res G = Return lG →
  ∃ l, _children_by_face target_res fuel current res (F ∪ G) = Return l.
Proof.
  revert current res F G lF lG.
  induction fuel as [|fuel IH]; intros current res F G lF lG; simpl;
    (case_decide; [by eexists|]); [done|].
  destruct (h3_cell_to_children current (res + 1)) as [children| |]; simpl;
    [|done..].
  fold (reverse_table (is_pentagon current)).
  intros HF HG. apply for_each_Return_intro. intros child result Hchild.
  eapply for_each_Return_inv in HF as (rF & sF & HbF); [|done].
  eapply for_each_Return_inv in HG as (rG & sG & HbG); [|done].
  cbn beta in *.
  fold (child_faces current res F child) in HbF.
  fold (child_faces current res G child) in HbG.
  fold (child_faces current res (F ∪ G) child).
  rewrite child_faces_union. revert HbF HbG.
  destruct (decide (child_faces current res F child = ∅)) as [HeF|HneF];
    [|destruct (decide (child_faces current res G child = ∅)) as [HeG|HneG]].
  - rewrite HeF, (left_id_L ∅ (∪)). intros _.
    destruct (decide (child_faces current res G child ≠ ∅)); [|by eexists].
    destruct (_children_by_face _ _ _ _ _) as [sub| |]; by eexists.
  - rewrite HeG, (right_id_L ∅ (∪)).
    destruct (decide (child_faces current res F child ≠ ∅)); [|by eexists].
    destruct (_children_by_face _ _ _ _ _) as [sub| |]; by eexists.
  - rewrite !decide_True by (done || by intros [? _]%empty_union_L).
    destruct (_children_by_face _ _ _ _ (child_faces current res F child))
      as [subF| |] eqn:HsubF; [|done..].
    destruct (_children_by_face _ _ _ _ (child_faces current res G child))
      as [subG| |] eqn:HsubG; [|done..].
    destruct (IH _ _ _ _ _ _ HsubF HsubG) as [l ->]. by eexists.
Qed.

(** X8.  The cells returned for a union of face sets are the cells
    returned for either set, so the result grows with the faces. *)
Theorem descend_union p target_res (F G : gset Z) lF lG :
  children_on_boundary_faces p target_res F = Return lF →
  children_on_boundary_faces p target_res G = Return lG →
  ∃ l, children_on_boundary_faces p target_res (F ∪ G) = Return l
       ∧ (∀ c, c ∈ l ↔ c ∈ lF ∨ c ∈ lG)
       ∧ (F ⊆ G → lF ⊆ lG).
Proof.
  intros HF HG.
  assert (∃ l, children_on_boundary_faces p target_res (F ∪ G) = Return l)
    as [l Hl].
  { unfold children_on_boundary_faces in *. case_decide; [done|].
    by eapply _children_by_face_union_returns. }
  apply children_on_boundary_faces_returned in HF as [Hge ->].
  apply children_on_boundary_faces_returned in HG as [_ ->].
  exists l. split; [done|].
  apply children_on_boundary_faces_returned in Hl as [_ ->].
  split; [apply boundary_descendants_union|].
  intros Hsub c Hc.
  assert (F ∪ G = G) as <-
    by (apply set_eq; intros x; rewrite elem_of_union;
        split; [intros [?%Hsub|?]; done|by right]).
  apply boundary_descendants_union. by left.
Qed.

End descend_structure.

(** ** Descend after ascend, over several levels *)

Lemma forward_entry_keys (b : bool) (res pos : Z) :
  dom (forward_entry b (res `mod` 2) pos) ⊆ all_faces.
Proof.
  destruct (decide (pos ∈ [0; 1; 2; 3; 4; 5; 6])) as [Hpos|Hpos].
  - destruct (parity_cases res) as [-> | ->], b;
      repeat (apply elem_of_cons in Hpos as [-> | Hpos]);
      try (by apply elem_of_nil in Hpos);
      (apply (bool_decide_unpack _); by vm_compute).
  - destruct (entries_outside b res pos Hpos) as [-> _].
    rewrite dom_empty_L. apply empty_subseteq.
Qed.

Section ascend_descend.
Context `{H3}.

Lemma trace_loop_lift rs current_h G y :
  y ∈ trace_loop rs current_h G →
  ∃ x, x ∈ G ∧ lift_face rs current_h x = Some y.
Proof.
  revert current_h G. induction rs as [|res rs IH]; intros current_h G;
    cbn [trace_loop lift_face].
  - intros Hy. by exists y.
  - destruct (is_pentagon current_h); [by intros ?%not_elem_of_empty|].
    case_decide; [by intros ?%not_elem_of_empty|].
    case_decide; [by intros ?%not_elem_of_empty|].
    intros (z & (x & Hx & Hz)%elem_of_set_omap & Hlift)%IH.
    exists x. split; [done|]. unfold forward_entry, forward_table.
    by rewrite Hz.
Qed.

Lemma lift_trace_loop rs current_h G x y :
  lift_face rs current_h x = Some y → x ∈ G →
  Forall (λ rc, ¬ stops_walk rc) (walk_cells rs current_h) →
  y ∈ trace_loop rs current_h G.
Proof.
  revert current_h G x. induction rs as [|res rs IH]; intros current_h G x;
    cbn [trace_loop lift_face walk_cells].
  - by intros [= ->].
  - intros (z & Hz & Hlift)%bind_Some Hx [Hstop Hrest]%Forall_cons.
    unfold stops_walk in Hstop. simpl in Hstop.
    destruct (is_pentagon current_h); [by destruct Hstop; left|].
    rewrite decide_False by (intros ?; apply Hstop; by right).
    set (mapped := set_omap _ G).
    assert (z ∈ mapped) as Hmapped by by apply (elem_of_set_omap_2 _ _ x).
    rewrite decide_False by (intros Hempty; by rewrite Hempty in Hmapped).
    by apply (IH _ _ z).
Qed.

Lemma lift_face_app rs1 rs2 c x :
  lift_face (rs1 ++ rs2) c x =
    lift_face rs1 c x ≫= lift_face rs2 (walk_end rs1 c).
Proof.
  revert c x. induction rs1 as [|res rs1 IH]; intros c x; [done|].
  cbn [app lift_face walk_end]. destruct (_ !! x) as [y|]; simpl; [|done].
  apply IH.
Qed.

Lemma walk_cells_app rs1 rs2 c :
  walk_cells (rs1 ++ rs2) c =
    walk_cells rs1 c ++ walk_cells rs2 (walk_end rs1 c).
Proof.
  revert c. induction rs1 as [|res rs1 IH]; intros c; [done|].
  cbn [app walk_cells walk_end]. by rewrite IH.
Qed.

Lemma lift_face_key res rs c x y :
  lift_face (res :: rs) c x = Some y → x ∈ all_faces.
Proof.
  cbn [lift_face]. intros (z & Hz & _)%bind_Some.
  eapply forward_entry_keys, elem_of_dom_2, Hz.
Qed.

(** One level down, along the walk: the child is entered with a face set
    that holds [x] whenever the faces of the parent hold the lift of
    [x]. *)
Lemma child_faces_lift res c x z (faces : gset Z) :
  round_trip_step (res, c) →
  forward_entry (is_pentagon (cell_to_parent c (res - 1))) (res `mod` 2)
    (cell_to_child_pos c (res - 1)) !! x = Some z →
  z ∈ faces →
  x ∈ child_faces (cell_to_parent c (res - 1)) (res - 1) faces c.
Proof.
  intros [_ Hinv] Hx Hz. simpl in Hinv. unfold child_faces.
  replace (res - 1 + 1) with res by lia.
  apply elem_of_child_mapped_faces.
  pose proof (forward_reverse_inverse _ res _ Hinv) as Htables.
  apply (inverse_entries_spec _ _ z x Htables) in Hx.
  fold (reverse_entry (is_pentagon (cell_to_parent c (res - 1)))
          (res `mod` 2) (cell_to_child_pos c (res - 1))).
  destruct (reverse_entry _ _ _ !! z) as [s|] eqn:Hs;
    [|by apply not_elem_of_empty in Hx].
  by exists z, s.
Qed.

Lemma descend_reaches (n : nat) a r c x y (m : nat) leaf (faces : gset Z) :
  r = a + Z.of_nat n →
  lift_face (range_down r a) c x = Some y →
  Forall round_trip_step (walk_cells (range_down r a) c) →
  (∀ faces' : gset Z, x ∈ faces' → leaf ∈ boundary_descendants m c r faces') →
  y ∈ faces →
  leaf ∈ boundary_descendants (m + n) (walk_end (range_down r a) c) a faces.
Proof.
  revert r c x m. induction n as [|n IH]; intros r c x m Hr Hlift Hsteps Hleaf Hy.
  - assert (r = a) as -> by lia. rewrite range_down_nil in * by lia.
    injection Hlift as ->. rewrite Nat.add_0_r. by apply Hleaf.
  - rewrite range_down_cons in * by lia.
    cbn [lift_face walk_cells walk_end] in *.
    apply bind_Some in Hlift as (z & Hz & Hlift).
    apply Forall_cons in Hsteps as [Hstep Hsteps].
    replace (m + S n)%nat with (S m + n)%nat by lia.
    apply (IH (r - 1) _ z); [lia|done|done| |done].
    intros faces' Hz'. apply elem_of_boundary_descendants_S.
    exists c. destruct Hstep as [Hchild Hinv]. simpl in Hchild, Hinv.
    replace (r - 1 + 1) with r by lia. split; [done|].
    assert (x ∈ child_faces (cell_to_parent c (r - 1)) (r - 1) faces' c) as Hx
      by by eapply child_faces_lift.
    split; [intros Hempty; by rewrite Hempty in Hx|by apply Hleaf].
Qed.

(** X9.  Ascend then descend, over any number of levels: if the trace
    of [c] to resolution [a] meets the faces [F], the descent from the
    ancestor of [c] at [a] with [F] returns [c], provided no step of the
    walk is position 3 under a pentagon ([c] being a cell of the grid,
    its resolution is at most the finest). *)
Theorem descend_complete c a (G F S : gset Z) :
  parent_resolution_law → parent_compose_law →
  0 ≤ a < get_resolution c →
  get_resolution c ≤ max_resolution →
  Forall round_trip_step (walk_cells (range_down (get_resolution c) a) c) →
  trace_cell_to_ancestor_faces c G (Some a) = Return S →
  S ∩ F ≠ ∅ →
  ∃ l, children_on_boundary_faces (cell_to_parent c a) (get_resolution c) F
         = Return l
       ∧ c ∈ l.
Proof.
  intros Hres Hcomp Ha Hmax Hsteps Htrace Hmeet.
  rewrite trace_valid_loop in Htrace by done. injection Htrace as <-.
  apply set_choose_L in Hmeet as (y & [Hy HyF]%elem_of_intersection).
  apply trace_loop_lift in Hy as (x & _ & Hlift).
  rewrite children_on_boundary_faces_returns by (done || rewrite Hres; lia).
  eexists. split; [done|]. rewrite Hres by lia.
  rewrite <- (walk_end_parent c (get_resolution c) a) by (done || lia).
  replace (Z.to_nat (get_resolution c - a))
    with (0 + Z.to_nat (get_resolution c - a))%nat by lia.
  apply (descend_reaches _ a (get_resolution c) c x y); [lia|done|done| |done].
  intros faces' _. simpl. by apply list_elem_of_singleton.
Qed.

End ascend_descend.

(** ** Ascend after descend *)

Section ascend_after_descend.
Context `{H3}.

Lemma range_down_snoc r a :
  a < r → range_down r a = range_down r (a + 1) ++ [a + 1].
Proof.
  intros Har. rewrite (range_down_app r (a + 1) a) by lia.
  by rewrite (range_down_cons (a + 1)), (range_down_nil (a + 1 - 1) a) by lia.
Qed.

Lemma boundary_descendants_lift n current res (faces : gset Z) c :
  children_resolution_law → parent_of_child_law → pentagon_center_law →
  get_resolution current = res →
  is_pentagon current = false →
  faces ≠ ∅ →
  c ∈ boundary_descendants n current res faces →
  let rs := range_down (res + Z.of_nat n) res in
  ∃ x y, y ∈ faces
    ∧ lift_face rs c x = Some y
    ∧ Forall (λ rc, ¬ stops_walk rc) (walk_cells rs c)
    ∧ walk_end rs c = current.
Proof.
  intros Hres Hpar Hpent. revert current res faces.
  induction n as [|n IH]; intros current res faces Hcur Hhex Hne Hc rs.
  - apply list_elem_of_singleton in Hc as ->.
    apply set_choose_L in Hne as [y Hy]. exists y, y.
    subst rs. rewrite range_down_nil by lia. by repeat split.
  - apply elem_of_boundary_descendants_S in Hc as (child & Hchild & Hcf & Hc).
    assert (cell_to_child_pos child res ≠ 0) as Hpos
      by (intros Hpos; by apply Hcf, child_faces_center).
    assert (get_resolution child = res + 1) as Hchild_res
      by (subst res; by apply Hres).
    assert (cell_to_parent child res = current) as Hchild_par
      by (subst res; by apply Hpar).
    assert (is_pentagon child = false) as Hchild_hex.
    { destruct (is_pentagon child) eqn:Hp; [|done].
      destruct Hpos. subst res. by apply Hpent. }
    destruct (IH child (res + 1) _ Hchild_res Hchild_hex Hcf Hc)
      as (x & z & Hz & Hlift & Hstops & Hend).
    apply elem_of_child_mapped_faces in Hz as (y & s & Hy & Hs & Hz).
    assert (forward_entry (is_pentagon current) ((res + 1) `mod` 2)
              (cell_to_child_pos child res) !! z = Some y) as Hfwd.
    { apply (inverse_entries_spec _ (reverse_entry (is_pentagon current)
               ((res + 1) `mod` 2) (cell_to_child_pos child res))).
      - apply forward_reverse_inverse. by left.
      - unfold reverse_entry. by rewrite Hs. }
    exists x, y. split; [done|]. subst rs.
    replace (res + Z.of_nat (S n)) with (res + 1 + Z.of_nat n) in * by lia.
    rewrite range_down_snoc by lia.
    rewrite lift_face_app, walk_cells_app, walk_end_app, Hlift, Hend.
    cbn [mbind option_bind lift_face walk_cells walk_end].
    replace (res + 1 - 1) with res by lia. rewrite Hchild_par, Hfwd.
    split; [done|]. split; [|done].
    apply Forall_app. split; [done|]. apply Forall_singleton.
    intros [Hp|Hz0]; simpl in *; [congruence|].
    by replace (res + 1 - 1) with res in Hz0 by lia.
Qed.

(** X10.  Descend then ascend: from a parent that is not a pentagon,
    every cell the descent returns for the faces [F] traces back, from
    all six faces, to a set that meets [F]. *)
Theorem descend_sound p target_res (F : gset Z) l c :
  children_resolution_law → parent_of_child_law → pentagon_center_law →
  is_pentagon p = false →
  0 ≤ get_resolution p < target_res →
  children_on_boundary_faces p target_res F = Return l →
  c ∈ l →
  ∃ S, trace_cell_to_ancestor_faces c all_faces (Some (get_resolution p))
         = Return S
       ∧ S ∩ F ≠ ∅.
Proof.
  intros Hres Hpar Hpent Hhex Hp Hrun Hc.
  apply children_on_boundary_faces_returned in Hrun as [_ ->].
  assert (F ≠ ∅) as HF.
  { intros ->. destruct (Z.to_nat (target_res - get_resolution p)) eqn:Hn;
      [lia|]. rewrite boundary_descendants_empty_faces in Hc.
    by apply elem_of_nil in Hc. }
  pose proof Hc as Hc_res.
  apply boundary_descendants_resolution in Hc_res; [|done..].
  apply boundary_descendants_lift in Hc
    as (x & y & Hy & Hlift & Hstops & _); [|done..].
  rewrite trace_valid_loop by lia. eexists. split; [done|].
  rewrite Hc_res. intros Hempty.
  apply (not_elem_of_empty (C:=gset Z) y). rewrite <- Hempty.
  apply elem_of_intersection. split; [|done].
  eapply lift_trace_loop; [done| |done].
  destruct (range_down _ _) eqn:Hrs.
  - rewrite range_down_cons in Hrs by lia. done.
  - by eapply lift_face_key.
Qed.

End ascend_after_descend.

(** ** Descend: the result is not empty *)

Lemma reverse_table_covers (pent : bool) (res f : Z) :
  f ∈ all_faces → (pent = true → f ≠ 6) →
  face_covered pent (res `mod` 2) f.
Proof.
  intros Hf Hpent. unfold all_faces, fset in Hf.
  apply elem_of_list_to_set in Hf.
  destruct (parity_cases res) as [-> | ->], pent;
    repeat (apply elem_of_cons in Hf as [-> | Hf]);
    try (by apply elem_of_nil in Hf);
    try (by destruct Hpent);
    (apply (bool_decide_unpack _); by vm_compute).
Qed.

Lemma reverse_entry_values (b : bool) (res pos : Z) :
  map_Forall (λ _ s, s ⊆ all_faces) (reverse_entry b (res `mod` 2) pos).
Proof.
  destruct (decide (pos ∈ [0; 1; 2; 3; 4; 5; 6])) as [Hpos|Hpos].
  - destruct (parity_cases res) as [-> | ->], b;
      repeat (apply elem_of_cons in Hpos as [-> | Hpos]);
      try (by apply elem_of_nil in Hpos);
      (apply (bool_decide_unpack _); by vm_compute).
  - destruct (entries_outside b res pos Hpos) as [_ ->]. apply map_Forall_empty.
Qed.

Section descend_result_nonempty.
Context `{H3}.

Lemma child_faces_subset current res faces child :
  child_faces current res faces child ⊆ all_faces.
Proof.
  intros x (pf & s & _ & Hs & Hx)%elem_of_child_mapped_faces.
  by eapply (reverse_entry_values (is_pentagon current) (res + 1)
               (cell_to_child_pos child res) pf s).
Qed.

Lemma boundary_descendants_nonempty n current res (faces : gset Z) :
  children_resolution_law → child_positions_law →
  get_resolution current = res →
  res + Z.of_nat n ≤ max_resolution →
  faces ≠ ∅ → faces ⊆ all_faces →
  (is_pentagon current = true → ∃ f, f ∈ faces ∧ f ≠ 6) →
  boundary_descendants n current res faces ≠ [].
Proof.
  intros Hres Hpos. revert current res faces.
  induction n as [|n IH]; intros current res faces Hcur Hmax Hne Hsub Hpent;
    [done|].
  assert (∃ f, f ∈ faces ∧ (is_pentagon current = true → f ≠ 6))
    as (f & Hf & Hf6).
  { destruct (is_pentagon current) eqn:Hp.
    - destruct Hpent as (f & Hf & Hf6); [done|]. by exists f.
    - apply set_choose_L in Hne as [f Hf]. by exists f. }
  pose proof (reverse_table_covers (is_pentagon current) (res + 1) f
    (Hsub f Hf) Hf6) as (k & Hk & s & Hs & Hsne)%Exists_exists.
  destruct (Hpos current k) as (child & Hchild & Hchild_pos & Hchild_hex).
  { lia. }
  { repeat (apply elem_of_cons in Hk as [-> | Hk]); try lia.
    by apply elem_of_nil in Hk. }
  rewrite Hcur in Hchild, Hchild_pos.
  assert (s ⊆ child_faces current res faces child) as Hcf.
  { intros x Hx. apply elem_of_child_mapped_faces. exists f, s.
    rewrite Hchild_pos. done. }
  assert (child_faces current res faces child ≠ ∅) as Hcf_ne.
  { intros Hempty. rewrite Hempty in Hcf. apply Hsne.
    apply set_eq. intros x. split; [apply Hcf|by intros ?%not_elem_of_empty]. }
  assert (boundary_descendants n child (res + 1)
            (child_faces current res faces child) ≠ []) as Hrec.
  { apply IH; [subst res; by apply Hres|lia|done|apply child_faces_subset|].
    congruence. }
  destruct (boundary_descendants n child _ _) as [|c l] eqn:Hl; [done|].
  intros Hempty.
  assert (c ∈ boundary_descendants (S n) current res faces) as Hc.
  { apply elem_of_boundary_descendants_S. exists child. rewrite Hl.
    repeat split; [done..|by left]. }
  rewrite Hempty in Hc. by apply elem_of_nil in Hc.
Qed.

(** X11.  Up to the finest resolution of the grid, the descent with a
    non-empty set of faces between 1 and 6 (holding a face other than 6
    when the parent is a pentagon) returns at least one cell; this is so
    for the default, all six faces. *)
Theorem descend_nonempty p target_res (F : gset Z) :
  children_resolution_law → child_positions_law →
  get_resolution p ≤ target_res →
  target_res ≤ max_resolution →
  F ≠ ∅ → F ⊆ all_faces →
  (is_pentagon p = true → ∃ f, f ∈ F ∧ f ≠ 6) →
  ∃ l, children_on_boundary_faces p target_res F = Return l ∧ l ≠ [].
Proof.
  intros Hres Hpos Hp Hmax HF Hsub Hpent.
  rewrite children_on_boundary_faces_returns by lia.
  eexists. split; [done|]. apply boundary_descendants_nonempty;
    [done|done|done|lia|done|done|done].
Qed.

End descend_result_nonempty.

(** ** Descend: from one level to the next; faces out of range *)

Lemma reverse_entry_keys (b : bool) (res pos : Z) :
  dom (reverse_entry b (res `mod` 2) pos) ⊆ all_faces.
Proof.
  destruct (decide (pos ∈ [0; 1; 2; 3; 4; 5; 6])) as [Hpos|Hpos].
  - destruct (parity_cases res) as [-> | ->], b;
      repeat (apply elem_of_cons in Hpos as [-> | Hpos]);
      try (by apply elem_of_nil in Hpos);
      (apply (bool_decide_unpack _); by vm_compute).
  - destruct (entries_outside b res pos Hpos) as [_ ->].
    rewrite dom_empty_L. apply empty_subseteq.
Qed.

Section descend_levels.
Context `{H3}.

Lemma boundary_descendants_nested n current res faces c' :
  children_resolution_law → parent_of_child_law →
  get_resolution current = res →
  c' ∈ boundary_descendants (S n) current res faces →
  cell_to_parent c' (res + Z.of_nat n)
    ∈ boundary_descendants n current res faces.
Proof.
  intros Hres Hpar. revert current res faces.
  induction n as [|n IH]; intros current res faces Hcur
    (child & Hchild & Hcf & Hc)%elem_of_boundary_descendants_S.
  - apply list_elem_of_singleton in Hc as ->. simpl.
    rewrite Z.add_0_r. subst res. rewrite Hpar by done. by left.
  - apply elem_of_boundary_descendants_S. exists child.
    split; [done|]. split; [done|].
    replace (res + Z.of_nat (S n)) with (res + 1 + Z.of_nat n) by lia.
    apply IH; [subst res; by apply Hres|done].
Qed.

(** X12.  One level finer, every returned cell has its parent among
    the cells returned at the coarser level. *)
Theorem descend_nested p target_res faces l l' c' :
  children_resolution_law → parent_of_child_law →
  get_resolution p ≤ target_res →
  children_on_boundary_faces p target_res faces = Return l →
  children_on_boundary_faces p (target_res + 1) faces = Return l' →
  c' ∈ l' →
  cell_to_parent c' target_res ∈ l.
Proof.
  intros Hres Hpar Hp Hl Hl' Hc'.
  apply children_on_boundary_faces_returned in Hl as [_ ->].
  apply children_on_boundary_faces_returned in Hl' as [_ ->].
  replace (Z.to_nat (target_res + 1 - get_resolution p))
    with (S (Z.to_nat (target_res - get_resolution p))) in Hc' by lia.
  apply boundary_descendants_nested in Hc'; [|done..].
  by replace (get_resolution p + Z.of_nat (Z.to_nat (target_res - get_resolution p)))
    with target_res in Hc' by lia.
Qed.

Lemma boundary_descendants_extends n current res (faces : gset Z) c :
  children_resolution_law → parent_of_child_law → pentagon_center_law →
  child_positions_law →
  get_resolution current = res →
  res + Z.of_nat n < max_resolution →
  faces ≠ ∅ → faces ⊆ all_faces →
  (is_pentagon current = true → ∃ f, f ∈ faces ∧ f ≠ 6) →
  c ∈ boundary_descendants n current res faces →
  ∃ c', c' ∈ boundary_descendants (S n) current res faces
        ∧ cell_to_parent c' (res + Z.of_nat n) = c.
Proof.
  intros Hres Hpar Hpent Hpos. revert current res faces.
  induction n as [|n IH]; intros current res faces Hcur Hmax Hne Hsub Hp6 Hc.
  - apply list_elem_of_singleton in Hc as ->.
    pose proof (boundary_descendants_nonempty 1 current res faces
      Hres Hpos Hcur ltac:(lia) Hne Hsub Hp6) as Hone.
    destruct (boundary_descendants 1 current res faces) as [|c' l] eqn:Hl;
      [done|].
    exists c'. split; [by left|].
    assert (c' ∈ boundary_descendants 1 current res faces) as Hc'
      by (rewrite Hl; by left).
    apply boundary_descendants_nested in Hc'; [|done..].
    simpl in Hc'. by apply list_elem_of_singleton in Hc'.
  - apply elem_of_boundary_descendants_S in Hc as (child & Hchild & Hcf & Hc).
    assert (cell_to_child_pos child res ≠ 0) as Hpos0
      by (intros Hz; by apply Hcf, child_faces_center).
    destruct (IH child (res + 1) (child_faces current res faces child))
      as (c' & Hc' & Hpar'); [subst res; by apply Hres|lia|done
        |apply child_faces_subset| |done|].
    { intros Hp. destruct Hpos0. subst res. by apply Hpent. }
    exists c'. split.
    + apply elem_of_boundary_descendants_S. by exists child.
    + by replace (res + Z.of_nat (S n)) with (res + 1 + Z.of_nat n) by lia.
Qed.

(** X13.  One level finer, while that level is a resolution of the
    grid, every cell returned at the coarser level has a child among
    the cells returned. *)
Theorem descend_extends p target_res (F : gset Z) l l' c :
  children_resolution_law → parent_of_child_law → pentagon_center_law →
  child_positions_law →
  get_resolution p ≤ target_res →
  target_res < max_resolution →
  F ≠ ∅ → F ⊆ all_faces →
  (is_pentagon p = true → ∃ f, f ∈ F ∧ f ≠ 6) →
  children_on_boundary_faces p target_res F = Return l →
  children_on_boundary_faces p (target_res + 1) F = Return l' →
  c ∈ l →
  ∃ c', c' ∈ l' ∧ cell_to_parent c' target_res = c.
Proof.
  intros Hres Hpar Hpent Hpos Hp Hmax HF Hsub Hp6 Hl Hl' Hc.
  apply children_on_boundary_faces_returned in Hl as [_ ->].
  apply children_on_boundary_faces_returned in Hl' as [_ ->].
  replace (Z.to_nat (target_res + 1 - get_resolution p))
    with (S (Z.to_nat (target_res - get_resolution p))) by lia.
  apply boundary_descendants_extends in Hc as (c' & Hc' & Hpar');
    [|done..|lia|done|done|done].
  exists c'. split; [done|].
  by replace (get_resolution p + Z.of_nat (Z.to_nat (target_res - get_resolution p)))
    with target_res in Hpar' by lia.
Qed.

(** Faces outside 1 to 6 *)

Lemma child_faces_in_range current res (faces : gset Z) child :
  child_faces current res faces child =
    child_faces current res (faces ∩ all_faces) child.
Proof.
  unfold child_faces. apply set_eq. intros x.
  rewrite !elem_of_child_mapped_faces. split.
  - intros (pf & s & Hpf & Hs & Hx). exists pf, s.
    split; [|done]. apply elem_of_intersection. split; [done|].
    eapply (reverse_entry_keys (is_pentagon current) (res + 1)
              (cell_to_child_pos child res)), elem_of_dom_2, Hs.
  - intros (pf & s & [Hpf _]%elem_of_intersection & Hs & Hx).
    by exists pf, s.
Qed.

Lemma boundary_descendants_in_range n current res (faces : gset Z) :
  boundary_descendants (S n) current res faces =
    boundary_descendants (S n) current res (faces ∩ all_faces).
Proof.
  cbn [boundary_descendants]. apply list_bind_ext; [|done].
  intros child. by rewrite <- child_faces_in_range.
Qed.

Lemma trace_loop_in_range res rs current_h (faces : gset Z) :
  trace_loop (res :: rs) current_h faces =
    trace_loop (res :: rs) current_h (faces ∩ all_faces).
Proof.
  cbn [trace_loop]. destruct (is_pentagon current_h); [done|].
  case_decide; [done|].
  set (fm := default ∅ _).
  assert ((set_omap (λ f, fm !! f) faces : gset Z)
          = set_omap (λ f, fm !! f) (faces ∩ all_faces)) as ->; [|done].
  apply set_eq. intros y. rewrite !elem_of_set_omap. split.
  - intros (x & Hx & Hy). exists x. split; [|done].
    apply elem_of_intersection. split; [done|].
    eapply (forward_entry_keys (is_pentagon (cell_to_parent current_h (res - 1)))
              res (cell_to_child_pos current_h (res - 1))), elem_of_dom_2, Hy.
  - intros (x & [Hx _]%elem_of_intersection & Hy). by exists x.
Qed.

(** X14.  Faces that are not between 1 and 6 are ignored by both
    traversals: the result (and the error) is the one for the faces
    between 1 and 6 alone. *)
Theorem faces_out_of_range_ignored (h : Cell) (faces : gset Z)
    (res_parent : option Z) (target_res : Z) :
  trace_cell_to_ancestor_faces h faces res_parent
    = trace_cell_to_ancestor_faces h (faces ∩ all_faces) res_parent
  ∧ children_on_boundary_faces h target_res faces
    = children_on_boundary_faces h target_res (faces ∩ all_faces).
Proof.
  split.
  - unfold trace_cell_to_ancestor_faces. simpl.
    set (a := default (get_resolution h - 1) res_parent).
    case_decide; [done|]. case_decide; [done|].
    rewrite range_down_cons by lia.
    assert (∀ X : gset Z, (if decide (X = ∅) then Return ∅
      else Return (trace_loop (get_resolution h
             :: range_down (get_resolution h - 1) a) h X))
      = Return (trace_loop (get_resolution h
             :: range_down (get_resolution h - 1) a) h X)) as Hskip.
    { intros X. case_decide as HX; [|done].
      by rewrite HX, trace_loop_empty. }
    by rewrite !Hskip, trace_loop_in_range.
  - unfold children_on_boundary_faces. case_decide; [done|].
    destruct (Z.to_nat (target_res - get_resolution h)) as [|fuel]; simpl;
      (case_decide; [done|]); [done|].
    destruct (h3_cell_to_children h (get_resolution h + 1)) as [children| |];
      simpl; [|done..].
    apply for_each_ext. intros child result _.
    fold (reverse_table (is_pentagon h)).
    fold (child_faces h (get_resolution h) faces child).
    fold (child_faces h (get_resolution h) (faces ∩ all_faces) child).
    by rewrite <- child_faces_in_range.
Qed.

End descend_levels.

(** ** Calls without [input_faces] *)

Section calls_lemmas.
Context `{H3}.





End calls_lemmas.

(** ** The callers in [geom.py] and [__init__.py] *)

Section geom_properties.
Context `{H3}.

Lemma all_faces_other_than_6 : ∃ f, f ∈ all_faces ∧ f ≠ 6.
Proof. exists 1. split; [|done]. apply (bool_decide_unpack _). by vm_compute. Qed.

(** X16.  [get_buffered_boundary_polygon] never runs into the guard of
    [children_on_boundary_faces]: for a cell of resolution at most 15 and
    any [intermediate_res], the descent it asks for returns a non-empty
    list of cells at the resolution [min(max(intermediate_res, res + 1),
    15)], which lies between [res] and 15 and is 15 (the case that
    returns the boundary without a buffer) exactly when [res >= 14] or
    [intermediate_res >= 15]. *)
Theorem buffered_boundary_children (cell : Cell) (intermediate_res : Z) :
  children_resolution_law → child_positions_law →
  get_resolution cell ≤ 15 →
  let t := Geom.intermediate_res_of (get_resolution cell) intermediate_res in
  ∃ l, Geom.boundary_children cell intermediate_res = Return l
       ∧ l ≠ []
       ∧ (∀ c, c ∈ l → get_resolution c = t)
       ∧ get_resolution cell ≤ t ≤ 15
       ∧ (t = 15 ↔ 14 ≤ get_resolution cell ∨ 15 ≤ intermediate_res).
Proof.
  intros Hres Hpos Hcell t. unfold Geom.boundary_children.
  fold (Geom.intermediate_res_of (get_resolution cell) intermediate_res).
  fold t.
  assert (get_resolution cell ≤ t ≤ 15) as Ht
    by (unfold t, Geom.intermediate_res_of; lia).
  rewrite children_on_boundary_faces_returns by (unfold max_resolution; lia).
  eexists. split; [done|]. split; [|split; [|split; [done|]]].
  - apply boundary_descendants_nonempty;
      [done|done|done|unfold max_resolution; lia|apply all_faces_nonempty|done
      |intros _; apply all_faces_other_than_6].
  - intros c Hc. eapply boundary_descendants_resolution in Hc; [|done..]. lia.
  - unfold t, Geom.intermediate_res_of. lia.
Qed.

End geom_properties.

(** X17.  The two wrappers do not clamp alike: [max(res + 1,
    min(intermediate_res, 15))] of [get_buffered_boundary_polygon_cpp] is
    at least [res + 1] and equals [min(max(intermediate_res, res + 1),
    15)] of [get_buffered_boundary_polygon] exactly for [res <= 14]; for
    a cell of resolution 15 it is 16. *)
Theorem wrappers_clamp (res intermediate_res : Z) :
  res + 1 ≤ Geom.int_res res intermediate_res
  ∧ (Geom.int_res res intermediate_res
       = Geom.intermediate_res_of res intermediate_res ↔ res ≤ 14)
  ∧ (res ≤ 14 → Geom.int_res res intermediate_res ≤ 15)
  ∧ Geom.int_res 15 intermediate_res = 16.
Proof. unfold Geom.int_res, Geom.intermediate_res_of. lia. Qed.

(** ** The reference grid satisfies the other laws *)

Section more_grid_laws.

Lemma grid_children_direct (c : Grid.cell) :
  Grid.children c (Grid.resolution c + 1) = Grid.direct_children c.
Proof.
  unfold Grid.children. rewrite decide_False by lia.
  replace (Z.to_nat (Grid.resolution c + 1 - Grid.resolution c)) with 1%nat
    by lia.
  cbn [Grid.descendants].
  induction (Grid.direct_children c) as [|x l IH]; [done|].
  simpl. f_equal. exact IH.
Qed.

Lemma grid_extend_parent (c : Grid.cell) d :
  Grid.parent (Grid.Mk (Grid.base_cell c) (Grid.digits c ++ [d]))
    (Grid.resolution c) = c.
Proof.
  destruct c as [b l]. unfold Grid.parent, Grid.resolution. simpl.
  by rewrite Nat2Z.id, take_app_length.
Qed.

Lemma grid_extend_resolution (c : Grid.cell) d :
  Grid.resolution (Grid.Mk (Grid.base_cell c) (Grid.digits c ++ [d]))
  = Grid.resolution c + 1.
Proof. unfold Grid.resolution. simpl. rewrite length_app. simpl. lia. Qed.

#[local] Instance grid_extend_inj (c : Grid.cell) :
  Inj (=) (=) (λ d, Grid.Mk (Grid.base_cell c) (Grid.digits c ++ [d])).
Proof. intros d1 d2 [= Heq]. by apply app_inj_1 in Heq as [_ [= ->]]. Qed.

Lemma grid_child_digits_nodup (c : Grid.cell) : NoDup (Grid.child_digits c).
Proof.
  unfold Grid.child_digits. destruct (Grid.pentagon c);
    apply (bool_decide_unpack _); by vm_compute.
Qed.

Lemma grid_parent_compose : parent_compose_law.
Proof.
  intros c j k Hj Hjk Hk. simpl. unfold Grid.parent. simpl.
  rewrite take_take. do 2 f_equal. lia.
Qed.

Lemma grid_parent_of_child : parent_of_child_law.
Proof.
  intros c c'. simpl. rewrite grid_children_direct.
  intros (d & -> & _)%list_elem_of_fmap. apply grid_extend_parent.
Qed.

Lemma grid_children_nodup : children_nodup_law.
Proof.
  intros c. simpl. rewrite grid_children_direct.
  apply (NoDup_fmap_2 _), grid_child_digits_nodup.
Qed.

Lemma grid_child_pos (c : Grid.cell) (k : nat) d :
  Grid.child_digits c !! k = Some d →
  Grid.child_pos (Grid.Mk (Grid.base_cell c) (Grid.digits c ++ [d]))
    (Grid.resolution c) = Z.of_nat k.
Proof.
  intros Hk. unfold Grid.child_pos.
  rewrite grid_extend_parent, grid_extend_resolution, grid_children_direct.
  set (child := Grid.Mk _ _).
  assert (list_find (λ x, x = child) (Grid.direct_children c) = Some (k, child))
    as ->; [|done].
  apply list_find_Some. split; [|split; [done|]].
  - unfold Grid.direct_children. by rewrite list_lookup_fmap, Hk.
  - intros j y Hy Hjk ->. unfold Grid.direct_children in Hy.
    rewrite list_lookup_fmap in Hy.
    destruct (Grid.child_digits c !! j) as [d'|] eqn:Hj; [|done].
    simpl in Hy. apply (inj Some) in Hy. apply (grid_extend_inj c) in Hy as ->.
    pose proof (NoDup_lookup _ _ _ _ (grid_child_digits_nodup c) Hj Hk). lia.
Qed.

Lemma grid_pentagon_center : pentagon_center_law.
Proof.
  intros c c'. simpl. rewrite grid_children_direct.
  intros (d & -> & Hd)%list_elem_of_fmap Hpent.
  assert (d = 0) as ->.
  { unfold Grid.pentagon in Hpent. simpl in Hpent.
    apply andb_prop in Hpent as [_ Hall].
    rewrite forallb_app in Hall. apply andb_prop in Hall as [_ Hd0].
    simpl in Hd0. rewrite andb_true_r in Hd0. by destruct d. }
  apply (grid_child_pos c 0). unfold Grid.child_digits.
  by destruct (Grid.pentagon c).
Qed.

Lemma grid_child_positions : child_positions_law.
Proof.
  intros c k _ Hk. simpl.
  assert (∃ d, Grid.child_digits c !! Z.to_nat k = Some d ∧ d ≠ 0)
    as (d & Hd & Hd0).
  { unfold Grid.child_digits.
    assert (Z.to_nat k ∈ [1; 2; 3; 4; 5]%nat) as Hcases
      by (rewrite !elem_of_cons; lia).
    destruct (Grid.pentagon c);
      repeat (apply elem_of_cons in Hcases as [-> | Hcases]);
      try (by apply elem_of_nil in Hcases); by eexists. }
  exists (Grid.Mk (Grid.base_cell c) (Grid.digits c ++ [d])).
  rewrite grid_children_direct. split; [|split].
  - apply list_elem_of_fmap. exists d. split; [done|].
    by eapply list_elem_of_lookup_2.
  - rewrite (grid_child_pos c (Z.to_nat k)) by done. lia.
  - unfold Grid.pentagon. simpl. rewrite forallb_app. simpl.
    destruct d; [done|..]; simpl; by rewrite !andb_false_r.
Qed.

End more_grid_laws.

(** ** The further theorems on the reference grid *)

Lemma trace_result_faces_witness :
  trace_cell_to_ancestor_faces Grid.cell_325 all_faces None
    = Return (fset [1; 5])
  ∧ fset [1; 5] ⊆ all_faces ∧ (size (fset [1; 5]%Z) ≤ 2)%nat.
Proof.
  assert (trace_cell_to_ancestor_faces Grid.cell_325 all_faces None
          = Return (fset [1; 5])) as Htrace by (vm_compute; reflexivity).
  split; [exact Htrace|].
  exact (trace_result_faces Grid.cell_325 all_faces None (fset [1; 5]) Htrace).
Defined.

Lemma trace_union_witness :
  (trace_cell_to_ancestor_faces Grid.cell_325 (fset [1]) None
     = Return (fset [1])
   ∧ trace_cell_to_ancestor_faces Grid.cell_325 (fset [4]) None
     = Return (fset [5]))
  ∧ trace_cell_to_ancestor_faces Grid.cell_325 (fset [1] ∪ fset [4]) None
    = Return (fset [1] ∪ fset [5]).
Proof.
  assert (trace_cell_to_ancestor_faces Grid.cell_325 (fset [1]) None
          = Return (fset [1])) as H1 by (vm_compute; reflexivity).
  assert (trace_cell_to_ancestor_faces Grid.cell_325 (fset [4]) None
          = Return (fset [5])) as H4 by (vm_compute; reflexivity).
  split; [by split|].
  exact (proj1 (trace_union Grid.cell_325 (fset [1]) (fset [4])
                  (fset [1]) (fset [5]) None H1 H4)).
Defined.

Lemma trace_composes_witness :
  (parent_resolution_law ∧ parent_compose_law
   ∧ 0 ≤ 0 ∧ 0 < 1 ∧ 1 < get_resolution cell_33)
  ∧ trace_cell_to_ancestor_faces cell_33 all_faces (Some 0) =
      (G ← trace_cell_to_ancestor_faces cell_33 all_faces (Some 1);
       trace_cell_to_ancestor_faces (cell_to_parent cell_33 1) G (Some 0)).
Proof.
  assert (1 < get_resolution cell_33) as Hb by (vm_compute; reflexivity).
  split.
  - repeat split; first [exact grid_parent_resolution
                        | exact grid_parent_compose | lia | exact Hb].
  - exact (trace_composes cell_33 all_faces 0 1 grid_parent_resolution
             grid_parent_compose (Z.le_refl 0) Z.lt_0_1 Hb).
Defined.

Lemma coarsest_characterization_witness :
  (parent_resolution_law ∧ parent_compose_law
   ∧ 0 ≤ get_resolution Grid.cell_325)
  ∧ ∃ k A, cell_to_coarsest_ancestor_on_faces Grid.cell_325 all_faces
           = Return A
      ∧ 0 ≤ k ≤ get_resolution Grid.cell_325
      ∧ (k = get_resolution Grid.cell_325 ∧ A = Grid.cell_325
         ∨ k < get_resolution Grid.cell_325
           ∧ A = cell_to_parent Grid.cell_325 k)
      ∧ ∀ j, 0 ≤ j < get_resolution Grid.cell_325 →
          (trace_cell_to_ancestor_faces Grid.cell_325 all_faces (Some j)
             ≠ Return ∅ ↔ k ≤ j).
Proof.
  assert (0 ≤ get_resolution Grid.cell_325) as Hres
    by (vm_compute; discriminate).
  split.
  - repeat split; first [exact grid_parent_resolution
                        | exact grid_parent_compose | exact Hres].
  - exact (coarsest_characterization Grid.cell_325 all_faces
             grid_parent_resolution grid_parent_compose Hres).
Defined.

Lemma descend_descendants_witness :
  (children_resolution_law ∧ parent_of_child_law ∧ parent_compose_law
   ∧ 0 ≤ get_resolution Grid.base0
   ∧ children_on_boundary_faces Grid.base0 1 (fset [1])
     = Return [cell_1; cell_5]
   ∧ cell_5 ∈ [cell_1; cell_5])
  ∧ get_resolution cell_5 = 1
  ∧ (1 = get_resolution Grid.base0 ∧ cell_5 = Grid.base0
     ∨ get_resolution Grid.base0 < 1
       ∧ cell_to_parent cell_5 (get_resolution Grid.base0) = Grid.base0).
Proof.
  assert (0 ≤ get_resolution Grid.base0) as Hres by (vm_compute; discriminate).
  assert (children_on_boundary_faces Grid.base0 1 (fset [1])
          = Return [cell_1; cell_5]) as Hrun by (vm_compute; reflexivity).
  assert (cell_5 ∈ [cell_1; cell_5]) as Hin by by_computation.
  split.
  - repeat split; first [exact grid_children_resolution
      | exact grid_parent_of_child | exact grid_parent_compose
      | assumption].
  - exact (descend_descendants Grid.base0 1 (fset [1]) [cell_1; cell_5] cell_5
             grid_children_resolution grid_parent_of_child
             grid_parent_compose Hres Hrun Hin).
Defined.

Lemma descend_no_duplicates_witness :
  (children_resolution_law ∧ parent_of_child_law ∧ parent_compose_law
   ∧ children_nodup_law
   ∧ 0 ≤ get_resolution Grid.base0
   ∧ children_on_boundary_faces Grid.base0 1 (fset [1])
     = Return [cell_1; cell_5])
  ∧ NoDup [cell_1; cell_5].
Proof.
  assert (0 ≤ get_resolution Grid.base0) as Hres by (vm_compute; discriminate).
  assert (children_on_boundary_faces Grid.base0 1 (fset [1])
          = Return [cell_1; cell_5]) as Hrun by (vm_compute; reflexivity).
  split.
  - repeat split; first [exact grid_children_resolution
      | exact grid_parent_of_child | exact grid_parent_compose
      | exact grid_children_nodup | assumption].
  - exact (descend_no_duplicates Grid.base0 1 (fset [1]) [cell_1; cell_5]
             grid_children_resolution grid_parent_of_child
             grid_parent_compose grid_children_nodup Hres Hrun).
Defined.

Lemma descend_union_witness :
  (children_on_boundary_faces Grid.base0 1 (fset [1])
     = Return [cell_1; cell_5]
   ∧ children_on_boundary_faces Grid.base0 1 (fset [2])
     = Return [Grid.Mk 0 [2]; Grid.cell_3])
  ∧ ∃ l, children_on_boundary_faces Grid.base0 1 (fset [1] ∪ fset [2])
           = Return l
       ∧ (∀ c, c ∈ l ↔ c ∈ [cell_1; cell_5] ∨ c ∈ [Grid.Mk 0 [2]; Grid.cell_3])
       ∧ (fset [1] ⊆ fset [2] →
          [cell_1; cell_5] ⊆ [Grid.Mk 0 [2]; Grid.cell_3]).
Proof.
  assert (children_on_boundary_faces Grid.base0 1 (fset [1])
          = Return [cell_1; cell_5]) as H1 by (vm_compute; reflexivity).
  assert (children_on_boundary_faces Grid.base0 1 (fset [2])
          = Return [Grid.Mk 0 [2]; Grid.cell_3]) as H2
    by (vm_compute; reflexivity).
  split; [by split|].
  exact (descend_union Grid.base0 1 (fset [1]) (fset [2]) _ _ H1 H2).
Defined.

Lemma descend_complete_witness :
  (parent_resolution_law ∧ parent_compose_law
   ∧ 0 ≤ 0 < get_resolution cell_33
   ∧ get_resolution cell_33 ≤ max_resolution
   ∧ Forall round_trip_step
       (walk_cells (range_down (get_resolution cell_33) 0) cell_33)
   ∧ trace_cell_to_ancestor_faces cell_33 all_faces (Some 0)
     = Return (fset [2])
   ∧ fset [2] ∩ fset [2; 4] ≠ ∅)
  ∧ ∃ l, children_on_boundary_faces (cell_to_parent cell_33 0)
           (get_resolution cell_33) (fset [2; 4]) = Return l
       ∧ cell_33 ∈ l.
Proof.
  assert (0 ≤ 0 < get_resolution cell_33) as Ha by (vm_compute; done).
  assert (get_resolution cell_33 ≤ max_resolution) as Hmax
    by (vm_compute; discriminate).
  assert (Forall round_trip_step
            (walk_cells (range_down (get_resolution cell_33) 0) cell_33))
    as Hsteps by by_computation.
  assert (trace_cell_to_ancestor_faces cell_33 all_faces (Some 0)
          = Return (fset [2])) as Htrace by (vm_compute; reflexivity).
  assert (fset [2] ∩ fset [2; 4] ≠ ∅) as Hmeet by by_computation.
  split.
  - repeat split; first [exact grid_parent_resolution
      | exact grid_parent_compose | assumption | lia].
  - exact (descend_complete cell_33 0 all_faces (fset [2; 4]) (fset [2])
             grid_parent_resolution grid_parent_compose Ha Hmax Hsteps
             Htrace Hmeet).
Defined.

Lemma descend_sound_witness :
  (children_resolution_law ∧ parent_of_child_law ∧ pentagon_center_law
   ∧ is_pentagon Grid.base0 = false
   ∧ 0 ≤ get_resolution Grid.base0 < 1
   ∧ children_on_boundary_faces Grid.base0 1 (fset [1])
     = Return [cell_1; cell_5]
   ∧ cell_5 ∈ [cell_1; cell_5])
  ∧ ∃ S, trace_cell_to_ancestor_faces cell_5 all_faces
           (Some (get_resolution Grid.base0)) = Return S
       ∧ S ∩ fset [1] ≠ ∅.
Proof.
  assert (0 ≤ get_resolution Grid.base0 < 1) as Hres by (vm_compute; done).
  assert (children_on_boundary_faces Grid.base0 1 (fset [1])
          = Return [cell_1; cell_5]) as Hrun by (vm_compute; reflexivity).
  assert (cell_5 ∈ [cell_1; cell_5]) as Hin by by_computation.
  split.
  - repeat split; first [exact grid_children_resolution
      | exact grid_parent_of_child | exact grid_pentagon_center
      | assumption | lia].
  - exact (descend_sound Grid.base0 1 (fset [1]) [cell_1; cell_5] cell_5
             grid_children_resolution grid_parent_of_child
             grid_pentagon_center eq_refl Hres Hrun Hin).
Defined.

Lemma descend_nonempty_witness :
  (children_resolution_law ∧ child_positions_law
   ∧ get_resolution Grid.base4 ≤ 2 ∧ 2 ≤ max_resolution
   ∧ all_faces ≠ ∅ ∧ all_faces ⊆ all_faces
   ∧ (is_pentagon Grid.base4 = true → ∃ f, f ∈ all_faces ∧ f ≠ 6))
  ∧ ∃ l, children_on_boundary_faces Grid.base4 2 all_faces = Return l
       ∧ l ≠ [].
Proof.
  assert (get_resolution Grid.base4 ≤ 2) as Hres by (vm_compute; discriminate).
  assert (2 ≤ max_resolution) as Hmax by (vm_compute; discriminate).
  assert (is_pentagon Grid.base4 = true → ∃ f, f ∈ all_faces ∧ f ≠ 6) as Hp6.
  { intros _. exists 1. split; [by_computation|discriminate]. }
  split.
  - repeat split; first [exact grid_children_resolution
      | exact grid_child_positions | exact all_faces_nonempty
      | assumption | done].
  - exact (descend_nonempty Grid.base4 2 all_faces grid_children_resolution
             grid_child_positions Hres Hmax all_faces_nonempty (reflexivity _)
             Hp6).
Defined.

Lemma descend_nested_witness :
  (children_resolution_law ∧ parent_of_child_law
   ∧ get_resolution Grid.base0 ≤ 0
   ∧ children_on_boundary_faces Grid.base0 0 (fset [1]) = Return [Grid.base0]
   ∧ children_on_boundary_faces Grid.base0 (0 + 1) (fset [1])
     = Return [cell_1; cell_5]
   ∧ cell_5 ∈ [cell_1; cell_5])
  ∧ cell_to_parent cell_5 0 ∈ [Grid.base0].
Proof.
  assert (get_resolution Grid.base0 ≤ 0) as Hres by (vm_compute; discriminate).
  assert (children_on_boundary_faces Grid.base0 0 (fset [1])
          = Return [Grid.base0]) as H0 by (vm_compute; reflexivity).
  assert (children_on_boundary_faces Grid.base0 (0 + 1) (fset [1])
          = Return [cell_1; cell_5]) as H1 by (vm_compute; reflexivity).
  assert (cell_5 ∈ [cell_1; cell_5]) as Hin by by_computation.
  split.
  - repeat split; first [exact grid_children_resolution
      | exact grid_parent_of_child | assumption].
  - exact (descend_nested Grid.base0 0 (fset [1]) [Grid.base0]
             [cell_1; cell_5] cell_5 grid_children_resolution
             grid_parent_of_child Hres H0 H1 Hin).
Defined.

Lemma descend_extends_witness :
  (children_resolution_law ∧ parent_of_child_law ∧ pentagon_center_law
   ∧ child_positions_law
   ∧ get_resolution Grid.base0 ≤ 1 ∧ 1 < max_resolution
   ∧ fset [1] ≠ ∅ ∧ fset [1] ⊆ all_faces
   ∧ (is_pentagon Grid.base0 = true → ∃ f, f ∈ fset [1] ∧ f ≠ 6)
   ∧ children_on_boundary_faces Grid.base0 1 (fset [1])
     = Return [cell_1; cell_5]
   ∧ children_on_boundary_faces Grid.base0 (1 + 1) (fset [1])
     = Return [Grid.Mk 0 [1; 4]; Grid.Mk 0 [1; 5]; Grid.Mk 0 [5; 1];
               Grid.Mk 0 [5; 4]; Grid.Mk 0 [5; 5]]
   ∧ cell_5 ∈ [cell_1; cell_5])
  ∧ ∃ c', c' ∈ [Grid.Mk 0 [1; 4]; Grid.Mk 0 [1; 5]; Grid.Mk 0 [5; 1];
                Grid.Mk 0 [5; 4]; Grid.Mk 0 [5; 5]]
          ∧ cell_to_parent c' 1 = cell_5.
Proof.
  assert (get_resolution Grid.base0 ≤ 1) as Hres by (vm_compute; discriminate).
  assert (1 < max_resolution) as Hmax by (vm_compute; reflexivity).
  assert (fset [1] ≠ ∅) as Hne by by_computation.
  assert (fset [1] ⊆ all_faces) as Hsub by by_computation.
  assert (is_pentagon Grid.base0 = true → ∃ f, f ∈ fset [1] ∧ f ≠ 6) as Hp6
    by (intros [=]).
  assert (children_on_boundary_faces Grid.base0 1 (fset [1])
          = Return [cell_1; cell_5]) as H1 by (vm_compute; reflexivity).
  assert (children_on_boundary_faces Grid.base0 (1 + 1) (fset [1])
          = Return [Grid.Mk 0 [1; 4]; Grid.Mk 0 [1; 5]; Grid.Mk 0 [5; 1];
                    Grid.Mk 0 [5; 4]; Grid.Mk 0 [5; 5]]) as H2
    by (vm_compute; reflexivity).
  assert (cell_5 ∈ [cell_1; cell_5]) as Hin by by_computation.
  split.
  - repeat split; first [exact grid_children_resolution
      | exact grid_parent_of_child | exact grid_pentagon_center
      | exact grid_child_positions | assumption].
  - exact (descend_extends Grid.base0 1 (fset [1]) [cell_1; cell_5] _ cell_5
             grid_children_resolution grid_parent_of_child
             grid_pentagon_center grid_child_positions
             Hres Hmax Hne Hsub Hp6 H1 H2 Hin).
Defined.


Lemma buffered_boundary_children_witness :
  (children_resolution_law ∧ child_positions_law
   ∧ get_resolution Grid.cell_325 ≤ 15)
  ∧ ∃ l, Geom.boundary_children Grid.cell_325 (-7) = Return l
       ∧ l ≠ []
       ∧ (∀ c, c ∈ l → get_resolution c = 4).
Proof.
  assert (get_resolution Grid.cell_325 ≤ 15) as Hres
    by (vm_compute; discriminate).
  split.
  - repeat split; first [exact grid_children_resolution
      | exact grid_child_positions | exact Hres].
  - destruct (buffered_boundary_children Grid.cell_325 (-7)
      grid_children_resolution grid_child_positions Hres)
      as (l & Hrun & Hne & Hall & _).
    exists l. repeat split; assumption.
Defined.

(** ** Position 3 under a pentagon *)

(** X18.  Under a pentagon the two directions do not agree at position
    3.  On the reference grid, [cell_4044] (not a pentagon, every cell of
    its walk listed among the children of its parent) traces to the
    non-empty set [{2}] at resolution 1, and the descent from its
    ancestor there with [{2}] does not return it; and the descent from
    that pentagon with [{3}] returns [cell_404], whose trace from all six
    faces does not meet [{3}]. *)
Theorem round_trip_fails_at_pentagon_position_3 :
  (is_pentagon cell_4044 = false
   ∧ is_pentagon (cell_to_parent cell_4044 1) = true
   ∧ cell_to_child_pos cell_404 1 = 3
   ∧ Forall (λ rc : Z * Cell,
       rc.2 ∈ cell_to_children (cell_to_parent rc.2 (rc.1 - 1)) rc.1)
       (walk_cells (range_down (get_resolution cell_4044) 1) cell_4044)
   ∧ trace_cell_to_ancestor_faces cell_4044 all_faces (Some 1)
     = Return (fset [2])
   ∧ ∃ l, children_on_boundary_faces (cell_to_parent cell_4044 1)
            (get_resolution cell_4044) (fset [2]) = Return l
        ∧ cell_4044 ∉ l)
  ∧ (∃ l, children_on_boundary_faces pentagon_40 2 (fset [3]) = Return l
        ∧ cell_404 ∈ l)
  ∧ ∃ S, trace_cell_to_ancestor_faces cell_404 all_faces (Some 1) = Return S
       ∧ S ∩ fset [3] = ∅.
Proof.
  split; [|split].
  - split; [reflexivity|]. split; [reflexivity|]. split; [reflexivity|].
    split; [by_computation|]. split; [vm_compute; reflexivity|].
    eexists. split; [vm_compute; reflexivity|]. by_computation.
  - eexists. split; [vm_compute; reflexivity|]. by_computation.
  - eexists. split; [vm_compute; reflexivity|]. by vm_compute.
Qed.
